(** * Voice-assisted teacher workload system: the voice-command core

    A shallow embedding of [voice_processor.py] (class [VoiceProcessor]) and
    of the parts of [database.py] (class [DatabaseManager]) that the command
    pipeline calls, with the properties of the specification stated and
    proved (or refuted) over it.

    Modelling choices, valid for the whole file:
    - a Python [str] is a [list ascii]: the model covers ASCII transcripts.
      On ASCII text [\s], [str.split], [str.strip] and [str.isspace] agree
      (code points 9-13, 28-31 and 32), [\d] and [str.isdigit] are [0-9],
      and [\w] is [[A-Za-z0-9_]];
    - Python [int] is [Z];
    - the [dict] of marks is a [gmap Z Z]; the [dict] of lookup keys of the
      roster matcher, whose iteration order matters, is an association list
      kept in insertion order;
    - the [re] module is embedded as a backtracking matcher over a regular
      expression syntax tree; every pattern of the source is written as the
      tree of its text;
    - the SQLite store is a record of tables, threaded through the pipeline
      together with a log of the steps that were invoked and with the one
      fact about connections that outlives a call: whether a connection
      was left open inside a write transaction. *)

From Stdlib Require Import Ascii String ZArith List Bool Lia QArith.
From stdpp Require Import gmap strings list fin_maps pretty sorting.

Local Open Scope Z_scope.

(** ** Python strings *)

Module PyStr.

Abbreviation str := (list ascii).

(** A string literal of the source. *)
Definition lit (s : string) : str := list_ascii_of_string s.

Definition code (c : ascii) : nat := nat_of_ascii c.

Definition between (lo hi n : nat) : bool := (lo <=? n)%nat && (n <=? hi)%nat.

(** [str.isspace] on one ASCII character, which is also the class [\s]. *)
Definition is_space (c : ascii) : bool :=
  between 9 13 (code c) || between 28 32 (code c).

(** [0-9]: [str.isdigit] on one ASCII character and the class [\d]. *)
Definition is_digit (c : ascii) : bool := between 48 57 (code c).

Definition is_upper (c : ascii) : bool := between 65 90 (code c).
Definition is_lower (c : ascii) : bool := between 97 122 (code c).

(** The class [\w] on ASCII. *)
Definition is_word (c : ascii) : bool :=
  is_upper c || is_lower c || is_digit c || (code c =? 95)%nat.

Definition lower_char (c : ascii) : ascii :=
  if is_upper c then ascii_of_nat (code c + 32) else c.

(** [s.lower()] *)
Definition lower (s : str) : str := map lower_char s.

Fixpoint lstrip (s : str) : str :=
  match s with
  | c :: s' => if is_space c then lstrip s' else s
  | [] => []
  end.

Definition rstrip (s : str) : str := rev (lstrip (rev s)).

(** [s.strip()] *)
Definition strip (s : str) : str := rstrip (lstrip s).

(** [s.split()]: the maximal runs of non-whitespace characters. *)
Fixpoint split (s : str) : list str :=
  match s with
  | [] => []
  | c :: s' =>
      if is_space c then split s'
      else match s' with
           | [] => [[c]]
           | c' :: _ =>
               if is_space c' then [c] :: split s'
               else match split s' with
                    | w :: ws => (c :: w) :: ws
                    | [] => [[c]]
                    end
           end
  end.

(** [sep.join(l)] *)
Fixpoint join (sep : str) (l : list str) : str :=
  match l with
  | [] => []
  | [w] => w
  | w :: l' => w ++ sep ++ join sep l'
  end.

(** [s.startswith(p)] *)
Fixpoint startswith (s p : str) : bool :=
  match p, s with
  | [], _ => true
  | a :: p', b :: s' => bool_decide (a = b) && startswith s' p'
  | _ :: _, [] => false
  end.

(** [s.endswith(suf)] *)
Definition endswith (s suf : str) : bool :=
  bool_decide (drop (length s - length suf) s = suf).

(** [s[:-1]] *)
Definition but_last (s : str) : str := take (length s - 1) s.

(** [s.isdigit()] *)
Definition isdigit (s : str) : bool :=
  negb (bool_decide (s = [])) && forallb is_digit s.

(** [sub in s] *)
Fixpoint contains (sub s : str) : bool :=
  startswith s sub ||
  match s with
  | [] => false
  | _ :: s' => contains sub s'
  end.

(** [s.index(sub)], [None] where Python raises [ValueError]. *)
Fixpoint index (sub s : str) : option nat :=
  if startswith s sub then Some 0%nat
  else match s with
       | [] => None
       | _ :: s' => S <$> index sub s'
       end.

Definition digit_val (c : ascii) : Z := Z.of_nat (code c) - 48.

(** [int(s)] for a string of decimal digits. *)
Definition int_of (s : str) : Z :=
  fold_left (fun acc c => 10 * acc + digit_val c) s 0.

(** [str(n)] *)
Definition str_of_Z (n : Z) : str := lit (pretty n).

(** The double-quote character, as a one-character string. *)
Definition dquote : str := [ascii_of_nat 34].

End PyStr.

Import PyStr.

(** ** The domain validator and prefix expansion *)

(** [DatabaseManager.validate_question_combination] *)
Definition has_key (q : Z) (marks_dict : gmap Z Z) : bool :=
  bool_decide (is_Some (marks_dict !! q)).

Definition validate_question_combination (marks_dict : gmap Z Z) : bool :=
  if negb (size marks_dict =? 4)%nat then false
  else
    let has_q1_or_q2 := has_key 1 marks_dict || has_key 2 marks_dict in
    let has_q3_or_q4 := has_key 3 marks_dict || has_key 4 marks_dict in
    let has_q5_or_q6 := has_key 5 marks_dict || has_key 6 marks_dict in
    let has_q7_or_q8 := has_key 7 marks_dict || has_key 8 marks_dict in
    let has_both_q1_q2 := has_key 1 marks_dict && has_key 2 marks_dict in
    let has_both_q3_q4 := has_key 3 marks_dict && has_key 4 marks_dict in
    let has_both_q5_q6 := has_key 5 marks_dict && has_key 6 marks_dict in
    let has_both_q7_q8 := has_key 7 marks_dict && has_key 8 marks_dict in
    has_q1_or_q2 && has_q3_or_q4 && has_q5_or_q6 && has_q7_or_q8 &&
    negb has_both_q1_q2 && negb has_both_q3_q4 &&
    negb has_both_q5_q6 && negb has_both_q7_q8.

(** [VoiceProcessor._expand_usn], with [self.usn_prefix] as an argument. *)
Definition expand_usn (usn_prefix digits : str) : str :=
  if bool_decide (usn_prefix = []) then digits
  else if endswith usn_prefix (lit "0") && (length digits =? 3)%nat
       then but_last usn_prefix ++ digits
       else usn_prefix ++ digits.

(** ** The [re] module

    Python's backtracking matcher, for the constructs the source patterns
    use.  All patterns of the source are compiled with [re.IGNORECASE]: a
    literal character matches ignoring case. *)

Module Re.

Inductive regex : Type :=
| Eps                                  (* the empty pattern *)
| Chr (c : ascii)                      (* a literal character *)
| Cls (p : ascii -> bool)              (* a character class *)
| Seq (r1 r2 : regex)                  (* r1 r2 *)
| Alt (r1 r2 : regex)                  (* r1|r2 *)
| Star (greedy : bool) (r : regex)     (* r* and r*? *)
| Group (n : nat) (r : regex)          (* (r), the n-th group *)
| Bol                                  (* ^ *)
| NotAhead (r : regex).                (* (?!r) *)

(** [r+] and [r+?] *)
Definition Plus (greedy : bool) (r : regex) : regex := Seq r (Star greedy r).

(** [r?] *)
Definition Opt (r : regex) : regex := Alt r Eps.

(** A literal word. *)
Fixpoint Lit (s : str) : regex :=
  match s with
  | [] => Eps
  | c :: s' => Seq (Chr c) (Lit s')
  end.

(** The groups captured so far, the most recent binding first. *)
Definition caps : Type := list (nat * str).

Fixpoint cap_lookup (n : nat) (cs : caps) : option str :=
  match cs with
  | [] => None
  | (i, v) :: cs' => if (i =? n)%nat then Some v else cap_lookup n cs'
  end.

(** A continuation receives the rest of the subject and the captures. *)
Definition cont : Type := str -> caps -> option (str * caps).

(** The iterations of a star: [step] matches the body once.  An iteration
    has to consume input, so [length s] iterations are enough. *)
Fixpoint star_loop (step : str -> caps -> cont -> option (str * caps))
    (greedy : bool) (fuel : nat) (s : str) (cs : caps) (k : cont)
    : option (str * caps) :=
  match fuel with
  | O => k s cs
  | S fuel' =>
      let again :=
        step s cs (fun s' cs' =>
          if (length s' <? length s)%nat
          then star_loop step greedy fuel' s' cs' k else None) in
      if greedy
      then match again with Some x => Some x | None => k s cs end
      else match k s cs with Some x => Some x | None => again end
  end.

(** [m n r s cs k]: match [r] at the head of [s], then [k]; the first
    success in Python's order of alternatives.  [n] is the length of the
    whole subject, for [^]. *)
Fixpoint m (n : nat) (r : regex) (s : str) (cs : caps) (k : cont)
    {struct r} : option (str * caps) :=
  match r with
  | Eps => k s cs
  | Chr c =>
      match s with
      | a :: s' =>
          if bool_decide (lower_char a = lower_char c) then k s' cs else None
      | [] => None
      end
  | Cls p =>
      match s with
      | a :: s' => if p a then k s' cs else None
      | [] => None
      end
  | Seq r1 r2 => m n r1 s cs (fun s' cs' => m n r2 s' cs' k)
  | Alt r1 r2 =>
      match m n r1 s cs k with
      | Some x => Some x
      | None => m n r2 s cs k
      end
  | Star greedy r => star_loop (m n r) greedy (length s) s cs k
  | Group i r =>
      m n r s cs (fun s' cs' =>
        k s' ((i, take (length s - length s') s) :: cs'))
  | Bol => if (length s =? n)%nat then k s cs else None
  | NotAhead r =>
      match m n r s cs (fun s' cs' => Some (s', cs')) with
      | Some _ => None
      | None => k s cs
      end
  end.

(** A match object: [group(0)] and the captured groups. *)
Record rmatch : Type := { whole : str; groups : caps }.

(** [x.group(i)] for a group that took part in the match. *)
Definition group (i : nat) (x : rmatch) : str :=
  default [] (cap_lookup i (groups x)).

(** A match that starts exactly at the head of [s]. *)
Definition match_here (n : nat) (r : regex) (s : str) : option rmatch :=
  match m n r s [] (fun s' cs' => Some (s', cs')) with
  | Some (s', cs') =>
      Some {| whole := take (length s - length s') s; groups := cs' |}
  | None => None
  end.

Fixpoint search_from (n : nat) (r : regex) (s : str) : option rmatch :=
  match match_here n r s with
  | Some x => Some x
  | None =>
      match s with
      | [] => None
      | _ :: s' => search_from n r s'
      end
  end.

(** [re.search(r, text, re.IGNORECASE)] *)
Definition search (r : regex) (text : str) : option rmatch :=
  search_from (length text) r text.

(** The scan of [finditer]: [skip] characters of the last match are still
    to be passed over.  No pattern of the source matches the empty string;
    after an empty match the scan moves on by one character. *)
Fixpoint finditer_from (n : nat) (r : regex) (skip : nat) (s : str)
    : list rmatch :=
  match skip with
  | S skip' =>
      match s with
      | [] => []
      | _ :: s' => finditer_from n r skip' s'
      end
  | O =>
      match match_here n r s with
      | Some x =>
          x :: match s with
               | [] => []
               | _ :: s' => finditer_from n r (length (whole x) - 1) s'
               end
      | None =>
          match s with
          | [] => []
          | _ :: s' => finditer_from n r 0 s'
          end
      end
  end.

(** [re.finditer(r, text, re.IGNORECASE)] *)
Definition finditer (r : regex) (text : str) : list rmatch :=
  finditer_from (length text) r 0 text.

Fixpoint sub_from (n : nat) (r : regex) (repl : rmatch -> str)
    (skip : nat) (s : str) : str :=
  match skip with
  | S skip' =>
      match s with
      | [] => []
      | _ :: s' => sub_from n r repl skip' s'
      end
  | O =>
      match match_here n r s with
      | Some x =>
          repl x ++
          match s with
          | [] => []
          | c :: s' =>
              match whole x with
              | [] => c :: sub_from n r repl 0 s'
              | _ :: w => sub_from n r repl (length w) s'
              end
          end
      | None =>
          match s with
          | [] => []
          | c :: s' => c :: sub_from n r repl 0 s'
          end
      end
  end.

(** [re.sub(r, repl, text, flags=re.IGNORECASE)] with a function [repl]. *)
Definition sub (r : regex) (repl : rmatch -> str) (text : str) : str :=
  sub_from (length text) r repl 0 text.

(** The classes of the source patterns. *)
Definition ws : regex := Cls is_space.                       (* \s *)
Definition dg : regex := Cls is_digit.                       (* \d *)
Definition wd : regex := Cls is_word.                        (* \w *)
Definition word_or_space : regex :=                          (* [\w\s] *)
  Cls (fun c => is_word c || is_space c).
(** [[\s\-...]]: whitespace or a hyphen.  The further characters of the
    class in the source (U+00E2, U+20AC, U+201C and U+201D, what a wrong
    decoding left of two dashes) are not ASCII, and are left out with the
    rest of the non-ASCII text. *)
Definition space_or_dash : regex :=
  Cls (fun c => is_space c || bool_decide (c = "-"%char)).

End Re.

Import Re.

(** ** [VoiceProcessor]: extraction *)

(** A pattern as a sequence of its parts. *)
Fixpoint seqs (l : list regex) : regex :=
  match l with
  | [] => Eps
  | r :: l' => Seq r (seqs l')
  end.

(** [w in l] for a list of strings. *)
Definition in_words (w : str) (l : list str) : bool :=
  bool_decide (w ∈ l).

(** [VoiceProcessor.fix_transcription_errors] *)

(** The nested function [replace_question_number]. *)
Definition replace_question_number (x : rmatch) : str :=
  let full_text := whole x in
  let two_digit := group 1 x in
  match two_digit with
  | c1 :: c2 :: _ =>
      let digit1 := int_of [c1] in
      let digit2 := int_of [c2] in
      if (1 <=? digit1) && (digit1 <=? 8) && (0 <=? digit2) && (digit2 <=? 10)
      then lit "question " ++ str_of_Z digit1 ++ lit " " ++
           str_of_Z digit2 ++ lit " marks"
      else full_text
  | _ => full_text
  end.

(** [question\s*(\d{2})\s*mark] *)
Definition fix_pattern_marks : regex :=
  seqs [Lit (lit "question"); Star true ws; Group 1 (Seq dg dg);
        Star true ws; Lit (lit "mark")].

(** [question\s*(\d{2})(?!\d)] *)
Definition fix_pattern_bare : regex :=
  seqs [Lit (lit "question"); Star true ws; Group 1 (Seq dg dg);
        NotAhead dg].

Definition fix_transcription_errors (text : str) : str :=
  let text := sub fix_pattern_marks replace_question_number text in
  let text := sub fix_pattern_bare replace_question_number text in
  text.

(** [VoiceProcessor.extract_marks] *)

(** A pattern of the list [patterns]: its text, which the loop inspects to
    tell which group is the question number, and its syntax tree.  The text
    is the source's without the non-ASCII characters of the dash class. *)
Record pattern : Type := { ptext : str; ptree : regex }.

Definition patterns : list pattern :=
  [ {| ptext := lit "question\s*(\d+)\s*,\s*(\d+)\s*marks?";
       ptree := seqs [Lit (lit "question"); Star true ws;
                      Group 1 (Plus true dg); Star true ws; Chr ","%char;
                      Star true ws; Group 2 (Plus true dg); Star true ws;
                      Lit (lit "mark"); Opt (Chr "s"%char)] |};
    {| ptext := lit "question\s*(\d+)[\s\-]*(\d+)\s*mark";
       ptree := seqs [Lit (lit "question"); Star true ws;
                      Group 1 (Plus true dg); Star true space_or_dash;
                      Group 2 (Plus true dg); Star true ws;
                      Lit (lit "mark")] |};
    {| ptext := lit "question\s*(\d+)[\s\-]+(\d+)(?!\d)";
       ptree := seqs [Lit (lit "question"); Star true ws;
                      Group 1 (Plus true dg); Plus true space_or_dash;
                      Group 2 (Plus true dg); NotAhead dg] |};
    {| ptext := lit "q(\d+)[\s\-]+(\d+)\s*mark";
       ptree := seqs [Chr "q"%char; Group 1 (Plus true dg);
                      Plus true space_or_dash; Group 2 (Plus true dg);
                      Star true ws; Lit (lit "mark")] |};
    {| ptext := lit "q(\d+)[\s\-]+(\d+)(?!\d)";
       ptree := seqs [Chr "q"%char; Group 1 (Plus true dg);
                      Plus true space_or_dash; Group 2 (Plus true dg);
                      NotAhead dg] |};
    {| ptext := lit "(\d+)\s*mark[s]?\s+in\s+question\s+(\d+)";
       ptree := seqs [Group 1 (Plus true dg); Star true ws;
                      Lit (lit "mark"); Opt (Chr "s"%char); Plus true ws;
                      Lit (lit "in"); Plus true ws; Lit (lit "question");
                      Plus true ws; Group 2 (Plus true dg)] |};
    {| ptext := lit "scored[\s\w]*?(\d+)\s*mark[s]?\s+in\s+question\s+(\d+)";
       ptree := seqs [Lit (lit "scored"); Star false word_or_space;
                      Group 1 (Plus true dg); Star true ws;
                      Lit (lit "mark"); Opt (Chr "s"%char); Plus true ws;
                      Lit (lit "in"); Plus true ws; Lit (lit "question");
                      Plus true ws; Group 2 (Plus true dg)] |} ].

(** [(\d+)[\s\w]*?question\s*(\d+)] *)
Definition flexible_pattern : regex :=
  seqs [Group 1 (Plus true dg); Star false word_or_space;
        Lit (lit "question"); Star true ws; Group 2 (Plus true dg)].

(** The test ['mark' in pattern and 'question' in pattern and
    pattern.index('question') > pattern.index(r'(\d+)')]. *)
Definition marks_come_first (p : str) : bool :=
  contains (lit "mark") p && contains (lit "question") p &&
  match index (lit "question") p, index (lit "(\d+)") p with
  | Some i, Some j => (j <? i)%nat
  | _, _ => false
  end.

Definition in_range (question_num marks : Z) : bool :=
  (1 <=? question_num) && (question_num <=? 8) &&
  (0 <=? marks) && (marks <=? 10).

(** The body of the inner loop over the matches of one pattern. *)
Definition record_match (p : str) (marks_dict : gmap Z Z) (x : rmatch)
    : gmap Z Z :=
  let g1 := group 1 x in
  let g2 := group 2 x in
  let '(question_num, marks) :=
    if marks_come_first p then (int_of g2, int_of g1)
    else (int_of g1, int_of g2) in
  if in_range question_num marks
  then <[question_num := marks]> marks_dict
  else marks_dict.

(** The body of the loop over the matches of the flexible pattern. *)
Definition record_flexible (marks_dict : gmap Z Z) (x : rmatch) : gmap Z Z :=
  let marks := int_of (group 1 x) in
  let question_num := int_of (group 2 x) in
  if in_range question_num marks
  then <[question_num := marks]> marks_dict
  else marks_dict.

Definition extract_marks (text : str) : gmap Z Z :=
  let text := fix_transcription_errors text in
  let marks_dict :=
    fold_left (fun d p =>
                 fold_left (record_match (ptext p)) (finditer (ptree p) text) d)
              patterns ∅ in
  if bool_decide (marks_dict = ∅)
  then fold_left record_flexible (finditer flexible_pattern text) marks_dict
  else marks_dict.

(** [VoiceProcessor.extract_attendance_status] *)
Definition extract_attendance_status (text : str) : option str :=
  if contains (lit "present") text then Some (lit "Present")
  else if contains (lit "absent") text then Some (lit "Absent")
  else None.

(** [VoiceProcessor.extract_identifier] *)

Definition noise_words : list str :=
  map lit ["i"; "scored"; "as"; "a"; "the"; "has"; "have"; "had"]%string.

Definition keywords : list str :=
  map lit ["is"; "has"; "have"; "scored"; "marks"; "mark"; "ia1"; "ia2";
           "question"; "i"]%string.

(** [usn\s+(\w+)] *)
Definition usn_pattern : regex :=
  seqs [Lit (lit "usn"); Plus true ws; Group 1 (Plus true wd)].

(** [^(\d{2,3})\s+(is|has|scored)] *)
Definition digit_pattern : regex :=
  seqs [Bol; Group 1 (seqs [dg; dg; Opt dg]); Plus true ws;
        Group 2 (Alt (Lit (lit "is"))
                     (Alt (Lit (lit "has")) (Lit (lit "scored"))))].

(** [^([\w\s]+?)\s+is\s+(present|absent)] *)
Definition status_pattern : regex :=
  seqs [Bol; Group 1 (Plus false word_or_space); Plus true ws;
        Lit (lit "is"); Plus true ws;
        Group 2 (Alt (Lit (lit "present")) (Lit (lit "absent")))].

Definition marks_patterns : list regex :=
  [ (* ^([\w\s]+?)\s+(?:has\s+)?scored *)
    seqs [Bol; Group 1 (Plus false word_or_space); Plus true ws;
          Opt (Seq (Lit (lit "has")) (Plus true ws)); Lit (lit "scored")];
    (* ^([\w\s]+?)\s+has\s+ *)
    seqs [Bol; Group 1 (Plus false word_or_space); Plus true ws;
          Lit (lit "has"); Plus true ws];
    (* ^([\w\s]+?)\s+ia[12] *)
    seqs [Bol; Group 1 (Plus false word_or_space); Plus true ws;
          Lit (lit "ia");
          Cls (fun c => bool_decide (c = "1"%char) || bool_decide (c = "2"%char))] ].

(** [' '.join(name_parts) if name_parts else name], for the captured name. *)
Definition clean_name (x : rmatch) : str :=
  let name := strip (group 1 x) in
  let name_parts :=
    filter (fun w => in_words (lower w) noise_words = false) (split name) in
  match name_parts with
  | [] => name
  | _ => join (lit " ") name_parts
  end.

(** The first of the [marks_patterns] that matches. *)
Fixpoint first_match (ps : list regex) (text : str) : option rmatch :=
  match ps with
  | [] => None
  | p :: ps' =>
      match search p text with
      | Some x => Some x
      | None => first_match ps' text
      end
  end.

(** The loop over [words] of the last rule. *)
Fixpoint identifier_words (words : list str) : list str :=
  match words with
  | [] => []
  | word :: words' =>
      if in_words (lower word) keywords then []
      else if negb (in_words (lower word) noise_words) &&
              (1 <? length word)%nat && negb (isdigit word)
           then word :: identifier_words words'
           else identifier_words words'
  end.

Definition extract_identifier (usn_prefix text : str) : option str :=
  match search usn_pattern text with
  | Some x =>
      let usn_part := group 1 x in
      if isdigit usn_part && (length usn_part <=? 3)%nat &&
         negb (bool_decide (usn_prefix = []))
      then Some (expand_usn usn_prefix usn_part)
      else Some usn_part
  | None =>
      match (if bool_decide (usn_prefix = []) then None
             else search digit_pattern text) with
      | Some x => Some (expand_usn usn_prefix (group 1 x))
      | None =>
          match search status_pattern text with
          | Some x => Some (clean_name x)
          | None =>
              match first_match marks_patterns text with
              | Some x => Some (clean_name x)
              | None =>
                  match identifier_words (split text) with
                  | [] => None
                  | ids => Some (join (lit " ") ids)
                  end
              end
          end
      end
  end.

(** ** [DatabaseManager]: the store *)

(** A row of the table [students], as [fuzzy_find_student] selects it:
    [(id, usn, name)]. *)
Record student : Type := { student_id : Z; usn : str; name : str }.

Global Instance student_eq_dec : EqDecision student.
Proof. solve_decision. Defined.

(** A row of [ia_marks]: the columns [q1_marks] to [q8_marks] in order.  The
    columns [id] and [recorded_at], which the store fills in, are left out
    here and in [attendance_row]. *)
Record marks_row : Type :=
  { mr_student_id : Z; mr_ia_type : str; mr_q_marks : list (option Z);
    mr_total_marks : Z }.

Record attendance_row : Type :=
  { ar_student_id : Z; ar_date : str; ar_status : str }.

Record database : Type :=
  { students : list student;
    attendance : list attendance_row;
    ia_marks : list marks_row }.

(** A Python [dict] with string keys, in insertion order: assigning to an
    existing key keeps its position. *)
Fixpoint dict_set {V : Type} (k : str) (v : V) (d : list (str * V))
    : list (str * V) :=
  match d with
  | [] => [(k, v)]
  | (k', v') :: d' =>
      if bool_decide (k' = k) then (k, v) :: d'
      else (k', v') :: dict_set k v d'
  end.

Fixpoint dict_get {V : Type} (k : str) (d : list (str * V)) : option V :=
  match d with
  | [] => None
  | (k', v') :: d' => if bool_decide (k' = k) then Some v' else dict_get k d'
  end.

Definition dict_keys {V : Type} (d : list (str * V)) : list str := map fst d.

(** The length of a longest common subsequence. *)
Fixpoint lcs (a b : str) : nat :=
  match a with
  | [] => 0%nat
  | x :: a' =>
      (fix lcs_row (b : str) : nat :=
         match b with
         | [] => 0%nat
         | y :: b' =>
             if bool_decide (x = y) then S (lcs a' b')
             else Nat.max (lcs a' b) (lcs_row b')
         end) b
  end.

(** Modelled from the spec: [rapidfuzz.fuzz.ratio], the scorer handed to
    [process.extractOne], is a library outside the repository.  The spec
    calls it a normalized, edit-distance-based ratio on a 0-100 scale; this
    is the ratio of the insertion-deletion distance,
    [100 * 2 * lcs / (len a + len b)], and 100 for two empty strings, as an
    exact rational (the library computes it in floating point). *)
Definition ratio (a b : str) : Q :=
  match (length a + length b)%nat with
  | O => 100%Q
  | S n => Qmake (200 * Z.of_nat (lcs a b)) (Pos.of_succ_nat n)
  end.

(** Modelled from the spec: [rapidfuzz.process.extractOne] with a score
    cutoff selects the best-scoring choice, the first one among equals,
    and yields it only if its score reaches the cutoff. *)
Fixpoint extractOne_from (query : str) (choices : list str) (cutoff : Q)
    (best : option (str * Q)) : option (str * Q) :=
  match choices with
  | [] => best
  | choice :: rest =>
      let score := ratio query choice in
      let better :=
        Qle_bool cutoff score &&
        match best with
        | None => true
        | Some (_, s) => negb (Qle_bool score s)
        end in
      extractOne_from query rest cutoff
        (if better then Some (choice, score) else best)
  end.

Definition extractOne (query : str) (choices : list str) (cutoff : Q)
    : option (str * Q) :=
  extractOne_from query choices cutoff None.

(** The search corpus [choices] built by the loop over [students]. *)
Definition build_choices (sts : list student) : list (str * student) :=
  fold_left (fun choices st =>
               dict_set (lower (name st)) st
                 (dict_set (lower (usn st)) st choices))
            sts [].

(** [DatabaseManager.fuzzy_find_student] on the rows of [students]. *)
Definition fuzzy_find_student (sts : list student) (identifier : str)
    : option student :=
  match sts with
  | [] => None
  | _ =>
      let choices := build_choices sts in
      match extractOne (lower identifier) (dict_keys choices) 70 with
      | Some (key, _) => dict_get key choices
      | None => None
      end
  end.

(** [marks_dict.get(q)] for q = 1..8, the values bound by the INSERT. *)
Definition q_columns (marks_dict : gmap Z Z) : list (option Z) :=
  map (fun q => marks_dict !! q) [1; 2; 3; 4; 5; 6; 7; 8].

(** The CHECK constraints of a [q*_marks] column: NULL or within 0..10. *)
Definition q_check (v : option Z) : bool :=
  match v with
  | None => true
  | Some x => (0 <=? x) && (x <=? 10)
  end.

(** The number of the first column, counted from [i], whose CHECK fails. *)
Fixpoint first_failed_q (i : Z) (qs : list (option Z)) : Z :=
  match qs with
  | [] => i
  | v :: qs' => if q_check v then first_failed_q (i + 1) qs' else i
  end.

(** The message of a failed CHECK of a [q*_marks] column: SQLite names
    the expression of the first constraint that fails. *)
Definition q_check_message (qs : list (option Z)) : str :=
  let q := lit "q" ++ str_of_Z (first_failed_q 1 qs) ++ lit "_marks" in
  lit "CHECK constraint failed: " ++ q ++ lit " >= 0 AND " ++ q ++ lit " <= 10".

(** A Python [int] is bound as an SQLite INTEGER when it fits in 64 bits;
    otherwise the binding raises [OverflowError], before the statement
    runs. *)
Definition int64 (n : Z) : bool := (- 2 ^ 63 <=? n) && (n <? 2 ^ 63).

Definition overflow_message : str :=
  lit "Python int too large to convert to SQLite INTEGER".

(** [INSERT OR REPLACE INTO ia_marks]: the row replaces the one with the
    same [(student_id, ia_type)].  [None] is an [ia_type] of Python's
    [None]; the error is the violated constraint, NOT NULL before the
    CHECKs in the order of the columns, which the caller turns into its
    message. *)
Definition insert_ia_marks (rows : list marks_row) (sid : Z)
    (ia_type : option str) (marks_dict : gmap Z Z) (total : Z)
    : list marks_row + str :=
  match ia_type with
  | None => inr (lit "NOT NULL constraint failed: ia_marks.ia_type")
  | Some ia =>
      if negb (in_words ia [lit "IA1"; lit "IA2"])
      then inr (lit "CHECK constraint failed: ia_type IN ('IA1', 'IA2')")
      else if negb (forallb q_check (q_columns marks_dict))
      then inr (q_check_message (q_columns marks_dict))
      else
        inl (filter (fun r => ¬ (mr_student_id r = sid ∧ mr_ia_type r = ia))
                    rows ++
             [{| mr_student_id := sid; mr_ia_type := ia;
                 mr_q_marks := q_columns marks_dict;
                 mr_total_marks := total |}])
  end.

(** [INSERT OR REPLACE INTO attendance], keyed by [(student_id, date)]. *)
Definition insert_attendance (rows : list attendance_row) (sid : Z)
    (date : option str) (status : str) : list attendance_row + str :=
  match date with
  | None => inr (lit "NOT NULL constraint failed: attendance.date")
  | Some d =>
      if negb (in_words status [lit "Present"; lit "Absent"])
      then inr (lit "CHECK constraint failed: status IN ('Present', 'Absent')")
      else
        inl (filter (fun r => ¬ (ar_student_id r = sid ∧ ar_date r = d)) rows ++
             [{| ar_student_id := sid; ar_date := d; ar_status := status |}])
  end.

(** ** The command pipeline, over the store and a log of its steps *)

Inductive event : Type :=
| EvExtractIdentifier (text : str)
| EvExtractStatus (text : str)
| EvExtractMarks (text : str)
| EvFuzzyFind (identifier : str)
| EvInsertAttendance (sid : Z) (date : option str) (status : str)
| EvInsertMarks (sid : Z) (ia_type : option str) (marks_dict : gmap Z Z)
    (total : Z).

(** The store, the log, and whether a connection left inside a write
    transaction is still open.  Every method of [DatabaseManager] opens a
    connection of its own and closes it after its commit only: when a
    statement raises, the [except] branch returns with the connection,
    its transaction and its lock on the file left open.  Until that
    connection is finalized, the writes of every other connection fail
    with [database is locked]; reads go through and see the committed
    rows. *)
Record world : Type :=
  { db : database; log : list event; pending : bool }.

(** Computations that read and write the store and append to the log. *)
Definition M (A : Type) : Type := world -> A * world.

Definition ret {A : Type} (a : A) : M A := fun w => (a, w).

Definition bind {A B : Type} (c : M A) (f : A -> M B) : M B :=
  fun w => let '(a, w') := c w in f a w'.

Notation "'do' x <- c ; k" := (bind c (fun x => k))
  (at level 10, x name, c at level 100, k at level 200).
Notation "'run' c ; k" := (bind c (fun _ => k))
  (at level 10, c at level 100, k at level 200).

Definition emit (e : event) : M unit :=
  fun w => (tt, {| db := db w; log := log w ++ [e]; pending := pending w |}).

Definition get_db : M database := fun w => (db w, w).

(** A commit: the rows of the store are replaced. *)
Definition put_db (d : database) : M unit :=
  fun w => (tt, {| db := d; log := log w; pending := pending w |}).

Definition get_pending : M bool := fun w => (pending w, w).

(** A statement has raised inside a write transaction: nothing is
    committed, and the connection is left open with its lock. *)
Definition abandon : M unit :=
  fun w => (tt, {| db := db w; log := log w; pending := true |}).

Definition locked_message : str := lit "database is locked".

(** The dictionary every command returns. *)
Record outcome : Type := { success : bool; message : str }.

Definition failure (msg : str) : outcome :=
  {| success := false; message := msg |}.

(** [DatabaseManager.record_attendance].  The parameters are bound
    first; the INSERT then needs the write lock, and only then are the
    constraints of the table checked.  Whatever is raised ends in the
    [except] branch, which builds the message and returns. *)
Definition record_attendance (sid : Z) (date : option str) (status : str)
    : M (bool * str) :=
  do d <- get_db ;
  run emit (EvInsertAttendance sid date status) ;
  if negb (int64 sid)
  then ret (false, lit "Error recording attendance: " ++ overflow_message)
  else
    do locked <- get_pending ;
    if locked
    then ret (false, lit "Error recording attendance: " ++ locked_message)
    else
      match insert_attendance (attendance d) sid date status with
      | inl rows =>
          run put_db {| students := students d; attendance := rows;
                        ia_marks := ia_marks d |} ;
          ret (true, lit "Attendance recorded successfully")
      | inr e =>
          run abandon ;
          ret (false, lit "Error recording attendance: " ++ e)
      end.

(** [str(x)] for a string that may be [None]. *)
Definition show_opt (o : option str) : str := default (lit "None") o.

(** The integers bound by the INSERT of [record_ia_marks] all fit. *)
Definition marks_bindable (sid : Z) (marks_dict : gmap Z Z) (total : Z)
    : bool :=
  int64 sid && forallb (fun v => int64 (default 0 v)) (q_columns marks_dict)
  && int64 total.

(** [DatabaseManager.record_ia_marks].  A rejected combination returns
    before any statement is run, so nothing is left pending; the INSERT
    goes as in [record_attendance]. *)
Definition record_ia_marks (sid : Z) (ia_type : option str)
    (marks_dict : gmap Z Z) (total : Z) : M (bool * str) :=
  do d <- get_db ;
  if negb (validate_question_combination marks_dict)
  then ret (false, lit "Invalid question combination. Must select one from each pair: (Q1/Q2), (Q3/Q4), (Q5/Q6), (Q7/Q8)")
  else
    run emit (EvInsertMarks sid ia_type marks_dict total) ;
    if negb (marks_bindable sid marks_dict total)
    then ret (false, lit "Error recording marks: " ++ overflow_message)
    else
      do locked <- get_pending ;
      if locked
      then ret (false, lit "Error recording marks: " ++ locked_message)
      else
        match insert_ia_marks (ia_marks d) sid ia_type marks_dict total with
        | inl rows =>
            run put_db {| students := students d; attendance := attendance d;
                          ia_marks := rows |} ;
            ret (true, show_opt ia_type ++ lit " marks recorded successfully")
        | inr e =>
            run abandon ;
            ret (false, lit "Error recording marks: " ++ e)
        end.

(** [not identifier]: [None] or the empty string. *)
Definition falsy (o : option str) : bool :=
  match o with
  | None | Some [] => true
  | Some _ => false
  end.

(** [sum(marks_dict.values())] *)
Definition sum_values (marks_dict : gmap Z Z) : Z :=
  map_fold (fun _ v acc => v + acc) 0 marks_dict.

(** [sorted(marks_dict.items())]: the keys are distinct, so the items are
    ordered by key. *)
Definition key_le (a b : Z * Z) : Prop := fst a ≤ fst b.

Global Instance key_le_dec : RelDecision key_le.
Proof. intros a b. unfold key_le. apply _. Defined.

Definition sorted_items (marks_dict : gmap Z Z) : list (Z * Z) :=
  merge_sort key_le (map_to_list marks_dict).

Definition not_found_message (identifier : str) : str :=
  lit "Student " ++ dquote ++ identifier ++ dquote ++
  lit " not found in database".

(** [VoiceProcessor.process_attendance_command] *)
Definition process_attendance_command (usn_prefix text : str)
    (date : option str) : M outcome :=
  let text := strip (lower text) in
  run emit (EvExtractIdentifier text) ;
  match extract_identifier usn_prefix text with
  | None | Some [] =>
      ret (failure (lit "Could not identify student from command"))
  | Some identifier =>
      run emit (EvExtractStatus text) ;
      match extract_attendance_status text with
      | None =>
          ret (failure (lit "Could not determine attendance status (Present/Absent)"))
      | Some status =>
          do d <- get_db ;
          run emit (EvFuzzyFind identifier) ;
          match fuzzy_find_student (students d) identifier with
          | None => ret (failure (not_found_message identifier))
          | Some st =>
              do r <- record_attendance (student_id st) date status ;
              if fst r
              then ret {| success := true;
                          message := name st ++ lit " (" ++ usn st ++
                                     lit ") marked " ++ status ++
                                     lit " for " ++ show_opt date |}
              else ret (failure (snd r))
          end
      end
  end.

(** [VoiceProcessor.process_marks_command] *)
Definition process_marks_command (usn_prefix text : str)
    (ia_type : option str) : M outcome :=
  let text := strip (lower text) in
  run emit (EvExtractIdentifier text) ;
  match extract_identifier usn_prefix text with
  | None | Some [] =>
      ret (failure (lit "Could not identify student from command"))
  | Some identifier =>
      do d <- get_db ;
      run emit (EvFuzzyFind identifier) ;
      match fuzzy_find_student (students d) identifier with
      | None => ret (failure (not_found_message identifier))
      | Some st =>
          run emit (EvExtractMarks text) ;
          let marks_dict := extract_marks text in
          if bool_decide (marks_dict = ∅)
          then ret (failure (lit "Could not extract marks from command"))
          else
            let total := sum_values marks_dict in
            if 40 <? total
            then ret (failure (lit "Total marks (" ++ str_of_Z total ++
                               lit ") exceeds maximum (40)"))
            else
              do r <- record_ia_marks (student_id st) ia_type marks_dict total ;
              if fst r
              then
                let questions_str :=
                  join (lit ", ")
                       (map (fun qm => lit "Q" ++ str_of_Z (fst qm) ++
                                       lit "=" ++ str_of_Z (snd qm))
                            (sorted_items marks_dict)) in
                ret {| success := true;
                       message := name st ++ lit " (" ++ usn st ++
                                  lit ") - " ++ show_opt ia_type ++ lit ": " ++
                                  questions_str ++ lit ", Total: " ++
                                  str_of_Z total ++ lit "/40" |}
              else ret (failure (snd r))
      end
  end.

(** [VoiceProcessor.process_text_command] *)
Definition process_text_command (usn_prefix text command_type : str)
    (date ia_type : option str) : M outcome :=
  if bool_decide (command_type = lit "attendance")
  then process_attendance_command usn_prefix text date
  else if bool_decide (command_type = lit "marks")
  then process_marks_command usn_prefix text ia_type
  else ret (failure (lit "Invalid command type")).

Section Audio.

(** The transcription engine: [VoiceProcessor.transcribe_audio] hands the
    uploaded file to Whisper and returns the text of its result, or
    [None] when Whisper is missing or raises. *)
Variable audio : Type.
Variable transcribe_audio : audio -> option str.

(** [VoiceProcessor.process_audio_file] *)
Definition process_audio_file (usn_prefix : str) (audio_file : audio)
    (command_type : str) (date ia_type : option str) : M outcome :=
  let transcribed_text := transcribe_audio audio_file in
  match transcribed_text with
  | None => ret (failure (lit "Failed to transcribe audio"))
  | Some text =>
      process_text_command usn_prefix text command_type date ia_type
  end.

End Audio.

Definition empty_db : database :=
  {| students := []; attendance := []; ia_marks := [] |}.

(** A store with no connection left open, and an empty log. *)
Definition start (d : database) : world :=
  {| db := d; log := []; pending := false |}.

(** ** Notions of the specification *)

(** The four pairs of alternative questions. *)
Definition question_pairs : list (Z * Z) := [(1, 2); (3, 4); (5, 6); (7, 8)].

(** At least one question of the pair is answered, and not both. *)
Definition one_of_pair (marks_dict : gmap Z Z) (p : Z * Z) : Prop :=
  (is_Some (marks_dict !! fst p) ∨ is_Some (marks_dict !! snd p)) ∧
  ¬ (is_Some (marks_dict !! fst p) ∧ is_Some (marks_dict !! snd p)).

(** The shape the validator is specified to accept: exactly 4 entries, at
    least one key of each pair and never both. *)
Definition valid_shape (marks_dict : gmap Z Z) : Prop :=
  size marks_dict = 4%nat ∧ Forall (one_of_pair marks_dict) question_pairs.

(** The same shape told by the keys: they are one member of each pair and
    nothing else. *)
Definition one_from_each_pair (marks_dict : gmap Z Z) : Prop :=
  ∃ a b c d : Z,
    (a = 1 ∨ a = 2) ∧ (b = 3 ∨ b = 4) ∧ (c = 5 ∨ c = 6) ∧ (d = 7 ∨ d = 8) ∧
    dom marks_dict = ({[a; b; c; d]} : gset Z).

(** Every entry of a marks dictionary is a question 1..8 with a score
    0..10. *)
Definition entries_in_range (marks_dict : gmap Z Z) : Prop :=
  map_Forall (fun q v => 1 ≤ q ≤ 8 ∧ 0 ≤ v ≤ 10) marks_dict.

(** The groups a pattern can bind. *)
Fixpoint groups_of (r : regex) : list nat :=
  match r with
  | Eps | Chr _ | Cls _ | Bol => []
  | Seq r1 r2 | Alt r1 r2 => groups_of r1 ++ groups_of r2
  | Star _ r | NotAhead r => groups_of r
  | Group i r => i :: groups_of r
  end.

(** The events that are an INSERT into [ia_marks], and those that are a
    lookup in the roster. *)
Definition is_insert_marks (e : event) : bool :=
  match e with
  | EvInsertMarks _ _ _ _ => true
  | _ => false
  end.

Definition is_fuzzy_find (e : event) : bool :=
  match e with
  | EvFuzzyFind _ => true
  | _ => false
  end.

(** A normalized transcript, as both commands make it: [text.lower().strip()]. *)
Definition normalize (text : str) : str := strip (lower text).

(** A roster entry owns a lookup key that is its lowercased roll number or
    name; [last_owner] is the last entry of the roster that owns the key. *)
Definition owns_key (key : str) (st : student) : Prop :=
  lower (usn st) = key ∨ lower (name st) = key.

Global Instance owns_key_dec key st : Decision (owns_key key st).
Proof. unfold owns_key. apply _. Defined.

Definition last_owner (key : str) (sts : list student) : option student :=
  last (filter (owns_key key) sts).

(** A roster of one student, for the examples. *)
Definition aloha : student :=
  {| student_id := 1; usn := lit "24CS001"; name := lit "Aloha Smith" |}.

Definition roster : database :=
  {| students := [aloha]; attendance := []; ia_marks := [] |}.

(** The match of the rules that capture a name: the status pattern, else
    the first of the marks patterns that matches. *)
Definition name_match (text : str) : option rmatch :=
  match search status_pattern text with
  | Some x => Some x
  | None => first_match marks_patterns text
  end.

(** A word of the stop-word list. *)
Definition is_noise (w : str) : Prop := lower w ∈ noise_words.

(** ** Notions of the proofs *)

(** An exact key wins: it scores 100 and no other string does. *)
Definition best_below (q : str) (best : option (str * Q)) : Prop :=
  match best with
  | None => True
  | Some (k, s) => s = ratio q k ∧ (k = q ∨ ¬ (100 <= s)%Q)
  end.

(** A success of the matcher is a success of its continuation, on a rest
    that is no longer than the subject, with the groups outside the
    pattern untouched. *)
Definition passes_on (gs : list nat)
    (f : str → caps → cont → option (str * caps)) : Prop :=
  ∀ s cs k x,
    f s cs k = Some x →
    ∃ s' cs', k s' cs' = Some x ∧ (length s' ≤ length s)%nat ∧
              ∀ g, g ∉ gs → cap_lookup g cs' = cap_lookup g cs.

(** Whether the matcher succeeds does not depend on the groups captured
    before. *)
Definition blind (f : str → caps → cont → option (str * caps)) : Prop :=
  ∀ s cs cs' (k k' : cont),
    (∀ s1 c1 c1', is_Some (k s1 c1) → is_Some (k' s1 c1')) →
    is_Some (f s cs k) → is_Some (f s cs' k').

(** ** Tactics *)

(** Case analysis on membership in a log that is written out. *)
Ltac log_cases H :=
  repeat match type of H with
         | _ ∈ _ :: _ => apply elem_of_cons in H as [H | H]
         | _ ∈ [] => apply elem_of_nil in H; contradiction
         | _ ∈ _ ++ _ => apply elem_of_app in H as [H | H]
         end.

(** Unfold the monad down to pairs of a result and a world. *)
Ltac run_monad :=
  unfold record_ia_marks, record_attendance, bind, emit, ret, get_db,
    put_db, get_pending, abandon, start, failure;
  cbn [db log pending fst snd app success message negb].

(** The group of a pattern list is not among the groups of its tail. *)
Ltac not_in_groups :=
  cbn; let Hg := fresh "Hg" in intros Hg; log_cases Hg; discriminate.

(** ** More of [voice_processor.py] and [database.py] *)

(** [VoiceProcessor.text_to_number] *)

Definition number_map : list (str * Z) :=
  [ (lit "zero", 0); (lit "one", 1); (lit "two", 2); (lit "three", 3);
    (lit "four", 4); (lit "five", 5); (lit "six", 6); (lit "seven", 7);
    (lit "eight", 8); (lit "nine", 9); (lit "ten", 10); (lit "eleven", 11);
    (lit "twelve", 12); (lit "thirteen", 13); (lit "fourteen", 14);
    (lit "fifteen", 15); (lit "sixteen", 16); (lit "seventeen", 17);
    (lit "eighteen", 18); (lit "nineteen", 19); (lit "twenty", 20);
    (lit "thirty", 30); (lit "forty", 40); (lit "fifty", 50) ].

Definition text_to_number (text : str) : option Z :=
  let text := strip (lower text) in
  if isdigit text then Some (int_of text)
  else
    match dict_get text number_map with
    | Some n => Some n
    | None =>
        match split text with
        | [w0; w1] =>
            let tens := default 0 (dict_get w0 number_map) in
            let ones := default 0 (dict_get w1 number_map) in
            Some (tens + ones)
        | _ => None
        end
    end.

(** [DatabaseManager.find_student_by_identifier]: the first row, in table
    order, whose roll number equals the identifier ignoring case, else the
    first whose name does.  (The column [created_at] of the selected row
    is left out.) *)
Definition find_student_by_identifier (sts : list student) (identifier : str)
    : option student :=
  match head (filter (fun st => lower (usn st) = lower identifier) sts) with
  | Some st => Some st
  | None => head (filter (fun st => lower (name st) = lower identifier) sts)
  end.

(** The order of [ORDER BY s.usn]: strings compared character by
    character, by code. *)
Fixpoint str_leb (a b : str) : bool :=
  match a, b with
  | [], _ => true
  | _ :: _, [] => false
  | x :: a', y :: b' =>
      if (code x <? code y)%nat then true
      else if (code y <? code x)%nat then false
      else str_leb a' b'
  end.

(** A record of the list [get_attendance_by_date] returns. *)
Record attendance_record : Type := { USN : str; Name : str; Status : str }.

Definition usn_le (a b : attendance_record) : Prop :=
  str_leb (USN a) (USN b) = true.

Global Instance usn_le_dec : RelDecision usn_le.
Proof. intros a b. unfold usn_le. apply _. Defined.

(** The rows of [attendance a JOIN students s ON a.student_id = s.id
    WHERE a.date = ?]. *)
Definition attendance_join (d : database) (date : str)
    : list attendance_record :=
  flat_map (fun a =>
              if bool_decide (ar_date a = date)
              then map (fun s => {| USN := usn s; Name := name s;
                                    Status := ar_status a |})
                       (filter (fun s => student_id s = ar_student_id a)
                               (students d))
              else [])
           (attendance d).

(** [DatabaseManager.get_attendance_by_date].  Rows with equal roll
    numbers, whose order SQL leaves open, keep the order of the join. *)
Definition get_attendance_by_date (d : database) (date : str)
    : list attendance_record :=
  merge_sort usn_le (attendance_join d date).

Definition get_total_attendance_records (d : database) : nat :=
  length (attendance d).
Definition get_total_marks_records (d : database) : nat :=
  length (ia_marks d).


Definition clear_marks : M bool :=
  do d <- get_db ;
  do locked <- get_pending ;
  if locked then ret false
  else
    run put_db {| students := students d; attendance := attendance d;
                  ia_marks := [] |} ;
    ret true.

Definition reset_database : M bool :=
  do locked <- get_pending ;
  if locked then ret false
  else
    run put_db {| students := []; attendance := []; ia_marks := [] |} ;
    ret true.

(** [DatabaseManager.load_students_from_csv].  The data frame is the list
    of its rows, each the pair of [str(row['USN'])] and [str(row['Name'])].
    [last_id] is the largest id the table [students] ever held: the column
    [id] is AUTOINCREMENT, so the new rows are numbered from the next one,
    also after the DELETE; the function returns the new value with its
    result.  The DELETE needs the write lock.  A roll number that occurs
    twice violates UNIQUE: the INSERT raises before the commit, so the
    rows and the numbering stay as they were, and the connection is left
    open inside its transaction. *)
Definition load_students_from_csv (last_id : Z) (df : list (str * str))
    : M ((bool * str) * Z) :=
  do d <- get_db ;
  do locked <- get_pending ;
  if locked
  then ret ((false, lit "Error loading students: " ++ locked_message),
            last_id)
  else
    let rows := map (fun row => (strip (fst row), strip (snd row))) df in
    if bool_decide (NoDup (map fst rows))
    then
      run put_db
        {| students :=
             imap (fun i row => {| student_id := last_id + 1 + Z.of_nat i;
                                   usn := fst row; name := snd row |}) rows;
           attendance := attendance d;
           ia_marks := ia_marks d |} ;
      ret ((true, lit "Successfully loaded " ++
                  str_of_Z (Z.of_nat (length df)) ++ lit " students"),
           last_id + Z.of_nat (length df))
    else
      run abandon ;
      ret ((false, lit "Error loading students: UNIQUE constraint failed: students.usn"),
           last_id).

(** A string of ASCII characters.  The character classes, [lower] and
    [strip] of this development are Python's on such strings. *)
Definition ascii_only (s : str) : Prop :=
  Forall (fun c => (code c < 128)%nat) s.

Global Instance ascii_only_dec s : Decision (ascii_only s).
Proof. unfold ascii_only. apply _. Defined.

(** ** Notions of the further properties *)

(** A row of [ia_marks] as the marks command writes it: exactly one mark
    in each pair of question columns, each within 0..10, and a total that
    is the sum of the four marks and at most 40. *)
Definition sum_columns (qs : list (option Z)) : Z :=
  fold_right (fun v acc => default 0 v + acc) 0 qs.

Definition one_mark_per_pair (qs : list (option Z)) : Prop :=
  ∃ a b c d e f g h : option Z,
    qs = [a; b; c; d; e; f; g; h] ∧
    (is_Some a ↔ ¬ is_Some b) ∧ (is_Some c ↔ ¬ is_Some d) ∧
    (is_Some e ↔ ¬ is_Some f) ∧ (is_Some g ↔ ¬ is_Some h).

Definition sound_marks_row (r : marks_row) : Prop :=
  one_mark_per_pair (mr_q_marks r) ∧
  Forall (fun v => q_check v = true) (mr_q_marks r) ∧
  mr_total_marks r = sum_columns (mr_q_marks r) ∧
  0 ≤ mr_total_marks r ≤ 40.

(** The text has the letter q, in either case. *)
Definition has_q (s : str) : Prop :=
  ∃ c, c ∈ s ∧ lower_char c = "q"%char.

(** The pattern cannot match without reading a letter q. *)
Fixpoint needs_q (r : regex) : bool :=
  match r with
  | Chr c => bool_decide (lower_char c = "q"%char)
  | Seq r1 r2 => needs_q r1 || needs_q r2
  | Alt r1 r2 => needs_q r1 && needs_q r2
  | Group _ r => needs_q r
  | Eps | Cls _ | Star _ _ | Bol | NotAhead _ => false
  end.

(** A success of the matcher is a success of its continuation on a suffix
    of the subject. *)
Definition passes_suffix (f : str → caps → cont → option (str * caps))
    : Prop :=
  ∀ s cs k x,
    f s cs k = Some x → ∃ s' cs', k s' cs' = Some x ∧ s' `suffix_of` s.

Definition is_insert_attendance (e : event) : bool :=
  match e with
  | EvInsertAttendance _ _ _ => true
  | _ => false
  end.

(** The columns bound by the INSERT, summed, against the dictionary. *)
Definition sum_at (m : gmap Z Z) (keys : list Z) : Z :=
  sum_columns (map (fun q => m !! q) keys).

(** Case analysis on every test of a command, down to its results. *)
Ltac command_cases :=
  run_monad;
  repeat (match goal with
          | H : context [match ?x with _ => _ end] |- _ => destruct x eqn:?
          | |- context [match ?x with _ => _ end] => destruct x eqn:?
          end; simplify_eq; run_monad).


(** * Properties *)

(** ** The domain validator *)

Lemma has_key_true q (m : gmap Z Z) : has_key q m = true ↔ is_Some (m !! q).
Proof. unfold has_key. apply bool_decide_eq_true. Qed.

Lemma validate_valid_shape (m : gmap Z Z) :
  validate_question_combination m = true ↔ valid_shape m.
Proof.
  unfold validate_question_combination, valid_shape, question_pairs.
  rewrite !Forall_cons, Forall_nil. unfold one_of_pair. simpl.
  rewrite <- !has_key_true.
  destruct (Nat.eqb_spec (size m) 4) as [Hs | Hs]; simpl.
  - destruct (has_key 1 m), (has_key 2 m), (has_key 3 m), (has_key 4 m),
      (has_key 5 m), (has_key 6 m), (has_key 7 m), (has_key 8 m);
      simpl; split; intros H; try discriminate; intuition congruence.
  - split; [intros; discriminate | tauto].
Qed.

Lemma valid_shape_keys (m : gmap Z Z) : valid_shape m ↔ one_from_each_pair m.
Proof.
  unfold valid_shape, one_from_each_pair, question_pairs.
  rewrite !Forall_cons, Forall_nil. unfold one_of_pair. simpl.
  rewrite <- !elem_of_dom. split.
  - intros (Hs & (H12 & N12) & (H34 & N34) & (H56 & N56) & (H78 & N78) & _).
    assert (∃ a, (a = 1 ∨ a = 2) ∧ a ∈ dom m) as (a & Ha & Hai)
      by (destruct H12; eauto).
    assert (∃ b, (b = 3 ∨ b = 4) ∧ b ∈ dom m) as (b & Hb & Hbi)
      by (destruct H34; eauto).
    assert (∃ c, (c = 5 ∨ c = 6) ∧ c ∈ dom m) as (c & Hc & Hci)
      by (destruct H56; eauto).
    assert (∃ d, (d = 7 ∨ d = 8) ∧ d ∈ dom m) as (d & Hd & Hdi)
      by (destruct H78; eauto).
    exists a, b, c, d. repeat (split; [assumption |]).
    symmetry. apply set_subseteq_size_eq.
    + intros x. rewrite !elem_of_union, !elem_of_singleton.
      intuition (subst; assumption).
    + rewrite size_dom, Hs.
      destruct Ha, Hb, Hc, Hd; subst; vm_compute; lia.
  - intros (a & b & c & d & Ha & Hb & Hc & Hd & Hdom).
    split.
    + rewrite <- size_dom, Hdom.
      destruct Ha, Hb, Hc, Hd; subst; reflexivity.
    + rewrite Hdom.
      rewrite !elem_of_union, !elem_of_singleton.
      destruct Ha, Hb, Hc, Hd; subst; lia.
Qed.

(** C1.  The validator accepts a marks dictionary if and only if it has
    exactly one member of each of the pairs {1,2}, {3,4}, {5,6}, {7,8} and
    no other key; this is the same as: exactly 4 entries, at least one key
    of each pair and never both.  Every other shape is rejected: the empty
    dictionary, one with more than 4 entries, one with both keys of a
    pair. *)
Theorem validate_question_combination_spec (m : gmap Z Z) :
  (validate_question_combination m = true ↔ one_from_each_pair m) ∧
  (one_from_each_pair m ↔ valid_shape m) ∧
  validate_question_combination ∅ = false ∧
  ((4 < size m)%nat → validate_question_combination m = false) ∧
  (∀ p, p ∈ question_pairs →
        is_Some (m !! fst p) → is_Some (m !! snd p) →
        validate_question_combination m = false).
Proof.
  split; [| split; [| split; [| split]]].
  - rewrite validate_valid_shape. apply valid_shape_keys.
  - symmetry. apply valid_shape_keys.
  - reflexivity.
  - intros Hs. apply not_true_is_false. rewrite validate_valid_shape.
    intros [Hs' _]. lia.
  - intros p Hp H1 H2. apply not_true_is_false. rewrite validate_valid_shape.
    intros [_ Hall]. rewrite Forall_forall in Hall.
    destruct (Hall p Hp) as [_ Hnot]. tauto.
Qed.

Lemma validate_question_combination_spec_witness :
  validate_question_combination
    (list_to_map [(1, 8); (2, 7); (3, 5); (5, 5); (7, 5)]) = false.
Proof.
  destruct (validate_question_combination_spec
              (list_to_map [(1, 8); (2, 7); (3, 5); (5, 5); (7, 5)]))
    as (_ & _ & _ & Hbig & _).
  apply Hbig. vm_compute. lia.
Defined.

(** ** Prefix expansion *)

(** C2.  Prefix expansion is the pure function of the prefix and the
    digits: when the prefix ends with the character 0 and the digit string
    has length 3, the prefix with its last character, that 0, removed,
    followed by the digits; in every other case the prefix followed by the
    digits.  This holds for every digit string, those of length 2 or 3
    among them; the early return of the source for an empty prefix is the
    second case. *)
Theorem expand_usn_spec (p d : str) :
  expand_usn p d =
    (if endswith p (lit "0") && (length d =? 3)%nat
     then but_last p ++ d
     else p ++ d) ∧
  (endswith p (lit "0") = true → but_last p ++ lit "0" = p).
Proof.
  split.
  - unfold expand_usn. case_bool_decide as Hp; [| reflexivity].
    subst p. reflexivity.
  - unfold endswith, but_last. intros H. apply bool_decide_eq_true in H.
    simpl length in H. rewrite <- H. apply take_drop.
Qed.

Lemma expand_usn_spec_witness :
  but_last (lit "1GA23CI0") ++ lit "0" = lit "1GA23CI0".
Proof.
  apply (proj2 (expand_usn_spec (lit "1GA23CI0") (lit "106"))).
  vm_compute. reflexivity.
Defined.

Example expand_usn_trailing_zero :
  expand_usn (lit "1GA23CI0") (lit "106") = lit "1GA23CI106" ∧
  expand_usn (lit "1GA23CI0") (lit "24") = lit "1GA23CI024" ∧
  expand_usn (lit "1GA23CI") (lit "106") = lit "1GA23CI106" ∧
  expand_usn (lit "1GA23CI") (lit "24") = lit "1GA23CI24".
Proof. vm_compute. repeat split; reflexivity. Qed.

(** ** The marks extractor *)

Lemma in_range_spec q v : in_range q v = true ↔ 1 ≤ q ≤ 8 ∧ 0 ≤ v ≤ 10.
Proof. unfold in_range. rewrite !andb_true_iff, !Z.leb_le. tauto. Qed.

Lemma entries_in_range_insert q v (d : gmap Z Z) :
  in_range q v = true → entries_in_range d → entries_in_range (<[q := v]> d).
Proof.
  intros Hr Hd. apply map_Forall_insert_2; [| exact Hd].
  now apply in_range_spec.
Qed.

Lemma record_match_in_range p (d : gmap Z Z) x :
  entries_in_range d → entries_in_range (record_match p d x).
Proof.
  intros Hd. unfold record_match.
  destruct (marks_come_first p);
    (destruct (in_range _ _) eqn:Hr; [now apply entries_in_range_insert | exact Hd]).
Qed.

Lemma record_flexible_in_range (d : gmap Z Z) x :
  entries_in_range d → entries_in_range (record_flexible d x).
Proof.
  intros Hd. unfold record_flexible.
  destruct (in_range _ _) eqn:Hr; [now apply entries_in_range_insert | exact Hd].
Qed.

(** A loop whose body keeps an invariant keeps it. *)
Lemma fold_left_invariant {A B : Type} (P : A → Prop) (f : A → B → A) l :
  (∀ a b, P a → P (f a b)) → ∀ a, P a → P (fold_left f l a).
Proof.
  intros Hf. induction l as [| b l IH]; intros a Ha; simpl; [exact Ha |].
  apply IH, Hf, Ha.
Qed.

(** C4.  Every entry of the dictionary returned by [extract_marks] is a
    question number within 1..8 with a score within 0..10, whichever
    pattern, primary or flexible, produced it. *)
Theorem extract_marks_in_range (text : str) :
  entries_in_range (extract_marks text).
Proof.
  unfold extract_marks.
  set (t := fix_transcription_errors text).
  assert (entries_in_range
            (fold_left (fun d p =>
                          fold_left (record_match (ptext p))
                                    (finditer (ptree p) t) d)
                       patterns ∅)) as Hprimary.
  { apply fold_left_invariant.
    - intros d p Hd. apply fold_left_invariant; [| exact Hd].
      intros d' x. apply record_match_in_range.
    - apply map_Forall_empty. }
  case_bool_decide as Hempty; [| exact Hprimary].
  apply fold_left_invariant; [| exact Hprimary].
  intros d x. apply record_flexible_in_range.
Qed.

(** The extractor on the two phrasings of the specification's scenarios,
    and on a transcript that only the flexible pattern reads. *)
Example extract_marks_q_dash :
  extract_marks (lit "q1-8, q4-8, q5-9, q7-6")
  = list_to_map [(1, 8); (4, 8); (5, 9); (7, 6)].
Proof. vm_compute. reflexivity. Qed.

Example extract_marks_question_comma :
  extract_marks (lit "question 1, 8 marks, question 3 - 7 marks, question 6 - 9 marks, question 8 - 8 marks")
  = list_to_map [(1, 8); (3, 7); (6, 9); (8, 8)].
Proof. vm_compute. reflexivity. Qed.

Example extract_marks_flexible :
  extract_marks (lit "8 for question 1") = {[ 1 := 8 ]}.
Proof. vm_compute. reflexivity. Qed.

Example extract_marks_out_of_range :
  extract_marks (lit "q9-5, q1-11") = ∅.
Proof. vm_compute. reflexivity. Qed.

(** ** The command pipeline *)

(** C3.  Whenever [process_marks_command] executes the INSERT of
    [record_ia_marks], the dictionary it persists is the one extracted from
    the normalized text, it has exactly 4 entries with exactly one key of
    each pair {1,2}, {3,4}, {5,6}, {7,8}, and the total persisted with it
    is the sum of its values and is at most 40.  A command whose extracted
    dictionary is not such a combination, or sums to more than 40, ends in
    a failure, with no INSERT in the log and the store unchanged. *)
Theorem process_marks_command_persists_valid
    (usn_prefix text : str) (ia_type : option str) (d : database) :
  let r := process_marks_command usn_prefix text ia_type (start d) in
  let marks_dict := extract_marks (normalize text) in
  (∀ sid ia m total,
      EvInsertMarks sid ia m total ∈ log (snd r) →
      m = marks_dict ∧ total = sum_values m ∧
      valid_shape m ∧ one_from_each_pair m ∧ total ≤ 40) ∧
  (validate_question_combination marks_dict = false ∨
   40 < sum_values marks_dict →
   success (fst r) = false ∧
   (∀ e, e ∈ log (snd r) → is_insert_marks e = false) ∧
   db (snd r) = d).
Proof.
  unfold process_marks_command, normalize.
  generalize (strip (lower text)) as t. intros t.
  run_monad.
  destruct (extract_identifier usn_prefix t) as [[| c id] |]; run_monad;
    try (split;
         [ intros sid ia m tot H; log_cases H; discriminate
         | intros _; repeat split; intros e H; log_cases H; subst; reflexivity ]).
  destruct (fuzzy_find_student (students d) (c :: id)) as [st |]; run_monad;
    try (split;
         [ intros sid ia m tot H; log_cases H; discriminate
         | intros _; repeat split; intros e H; log_cases H; subst; reflexivity ]).
  case_bool_decide as Hempty; run_monad;
    try (split;
         [ intros sid ia m tot H; log_cases H; discriminate
         | intros _; repeat split; intros e H; log_cases H; subst; reflexivity ]).
  destruct (40 <? sum_values (extract_marks t)) eqn:Hsum; run_monad;
    try (split;
         [ intros sid ia m tot H; log_cases H; discriminate
         | intros _; repeat split; intros e H; log_cases H; subst; reflexivity ]).
  apply Z.ltb_ge in Hsum.
  destruct (validate_question_combination (extract_marks t)) eqn:Hval;
    run_monad;
    try (split;
         [ intros sid ia m tot H; log_cases H; discriminate
         | intros _; repeat split; intros e H; log_cases H; subst; reflexivity ]).
  assert (valid_shape (extract_marks t)) as Hshape
    by (now apply validate_valid_shape).
  destruct (negb (marks_bindable _ _ _)); run_monad;
    [| destruct (insert_ia_marks _ _ _ _ _) as [rows | err]; run_monad ];
    (split;
     [ intros sid ia m tot H; log_cases H; try discriminate;
       injection H as -> -> -> ->;
       repeat split; try apply Hshape; try (now apply valid_shape_keys); lia
     | intros [Hbad | Hbad]; [discriminate | lia] ]).
Qed.

Lemma process_marks_command_persists_valid_witness :
  success (fst (process_marks_command [] (lit "aloha smith q1-10 q2-10 q3-10 q5-10 q7-10")
                  (Some (lit "IA1"))
                  (start {| students := [ {| student_id := 1;
                                             usn := lit "24CS001";
                                             name := lit "Aloha Smith" |} ];
                            attendance := []; ia_marks := [] |}))) = false.
Proof.
  refine (proj1 (proj2 (process_marks_command_persists_valid _ _ _ _) _)).
  right. vm_compute. reflexivity.
Defined.

Lemma not_found_message_inj a b :
  not_found_message a = not_found_message b → a = b.
Proof.
  unfold not_found_message. intros H.
  apply app_inv_head in H. apply app_inv_head in H.
  apply app_inv_tail in H. exact H.
Qed.

(** C5, as stated, fails: for the transcript [bob is here] the identifier
    [bob] is extracted and resolves to no entry of the roster, yet the
    outcome is the status failure, not the student-not-found failure, and
    the roster is never consulted. *)
Lemma attendance_status_precedes_roster_match :
  let r := process_attendance_command [] (lit "bob is here")
             (Some (lit "2024-01-01")) (start roster) in
  extract_identifier [] (normalize (lit "bob is here")) = Some (lit "bob") ∧
  fuzzy_find_student (students roster) (lit "bob") = None ∧
  fst r ≠ failure (not_found_message (lit "bob")) ∧
  fst r = failure (lit "Could not determine attendance status (Present/Absent)") ∧
  log (snd r) = [EvExtractIdentifier (lit "bob is here");
                 EvExtractStatus (lit "bob is here")].
Proof. vm_compute. repeat split; try reflexivity. discriminate. Qed.

(** C5, amended.  In attendance-command processing the status-extraction
    step precedes the roster-match step.  A command whose identifier was
    extracted and whose transcript contains neither [present] nor [absent]
    ends in the status failure without the roster being consulted, whether
    or not the identifier would resolve.  The student-not-found failure
    naming the identifier occurs exactly for the commands whose identifier
    was extracted, whose status was found and whose identifier resolves to
    no roster entry. *)
Theorem process_attendance_command_status_first
    (usn_prefix text : str) (date : option str) (d : database) :
  let t := normalize text in
  let r := process_attendance_command usn_prefix text date (start d) in
  (falsy (extract_identifier usn_prefix t) = false →
   extract_attendance_status t = None →
   fst r = failure (lit "Could not determine attendance status (Present/Absent)") ∧
   (∀ e, e ∈ log (snd r) → is_fuzzy_find e = false) ∧
   db (snd r) = d) ∧
  (∀ identifier,
     fst r = failure (not_found_message identifier) ↔
     extract_identifier usn_prefix t = Some identifier ∧ identifier ≠ [] ∧
     is_Some (extract_attendance_status t) ∧
     fuzzy_find_student (students d) identifier = None).
Proof.
  unfold process_attendance_command, normalize.
  generalize (strip (lower text)) as t. intros t.
  run_monad.
  destruct (extract_identifier usn_prefix t) as [[| c id] |]; run_monad.
  1, 3: split;
    [ intros Hf; discriminate
    | intros identifier; split;
      [ intros H; apply (f_equal message) in H; discriminate
      | intros (H & Hne & _); congruence ] ].
  destruct (extract_attendance_status t) as [status |]; run_monad.
  2: { split.
       - intros _ _. repeat split. intros e H. log_cases H; subst; reflexivity.
       - intros identifier; split.
         + intros H. apply (f_equal message) in H. discriminate.
         + intros (_ & _ & [s Hs] & _). discriminate. }
  split; [intros _ Hs; discriminate |].
  intros identifier.
  destruct (fuzzy_find_student (students d) (c :: id)) as [st |] eqn:Hfind;
    run_monad.
  - split.
    + destruct (negb (int64 _)); run_monad;
        [| destruct (insert_attendance _ _ _ _); run_monad ];
        intros H; try discriminate H;
        apply (f_equal message) in H; discriminate.
    + intros (H & _ & _ & Hnone). injection H as <-. congruence.
  - split.
    + intros H. apply (f_equal message), not_found_message_inj in H.
      subst identifier. repeat split; eauto.
    + intros (H & _). injection H as <-. reflexivity.
Qed.

Lemma process_attendance_command_status_first_witness :
  fst (process_attendance_command [] (lit "Bob is here") None (start roster))
  = failure (lit "Could not determine attendance status (Present/Absent)").
Proof.
  refine (proj1 (proj1 (process_attendance_command_status_first
                          [] (lit "Bob is here") None roster) _ _));
    vm_compute; reflexivity.
Defined.

(** C9: the code at an empty transcription.  When the engine returns the
    empty text, [process_audio_file] does not stop with the transcription
    failure: it hands the text on, the identifier extractor is invoked on
    it, and the outcome is the identifier failure.  (The live-recording
    path of [app.py] tests [if transcribed_text:] and does stop on an empty
    text; [process_audio_file] tests [is None] only.) *)
Theorem process_audio_file_empty_transcript :
  let r := process_audio_file unit (fun _ => Some []) (lit "1GA23CI0") tt
             (lit "attendance") (Some (lit "2024-01-01")) None (start roster) in
  fst r = failure (lit "Could not identify student from command") ∧
  fst r ≠ failure (lit "Failed to transcribe audio") ∧
  log (snd r) = [EvExtractIdentifier []].
Proof. vm_compute. repeat split; try reflexivity. discriminate. Qed.

(** A failed transcription does stop the command before any step. *)
Lemma process_audio_file_failed_transcript
    (audio : Type) (transcribe_audio : audio → option str)
    (usn_prefix : str) (a : audio) (command_type : str)
    (date ia_type : option str) (w : world) :
  transcribe_audio a = None →
  process_audio_file audio transcribe_audio usn_prefix a command_type
    date ia_type w
  = (failure (lit "Failed to transcribe audio"), w).
Proof. intros H. unfold process_audio_file. rewrite H. reflexivity. Qed.

(** ** The identifier extractor and the digit-merge correction, evaluated *)

(** C6: the code at a one-digit token.  With a prefix configured, the token
    [5] after [usn] is expanded, not returned verbatim: the test is
    [len(usn_part) <= 3], where the comment above it and the next rule
    ([\d{2,3}]) speak of 2-3 digits. *)
Theorem extract_identifier_usn_one_digit :
  normalize (lit "usn 5 is present") = lit "usn 5 is present" ∧
  extract_identifier (lit "1GA23CI0") (lit "usn 5 is present")
  = Some (lit "1GA23CI05") ∧
  extract_identifier (lit "1GA23CI0") (lit "usn 5 is present")
  ≠ Some (lit "5").
Proof. vm_compute. repeat split; try reflexivity. discriminate. Qed.

(** C7: the code at [question 18 marks].  The first substitution matches
    [question 18 mark] only and puts [question 1 8 marks] in its place, so
    the [s] that follows is kept and the text becomes
    [question 1 8 markss], where the comment in the source promises
    [question 1 8 marks]. *)
Theorem fix_transcription_errors_keeps_plural :
  fix_transcription_errors (lit "question 18 marks")
  = lit "question 1 8 markss" ∧
  fix_transcription_errors (lit "question 18 marks")
  ≠ lit "question 1 8 marks".
Proof. vm_compute. split; [reflexivity | discriminate]. Qed.

(** The correction on the other shapes the claim speaks of. *)
Example fix_transcription_errors_bare :
  fix_transcription_errors (lit "question 18") = lit "question 1 8 marks".
Proof. vm_compute. reflexivity. Qed.

Example fix_transcription_errors_singular :
  fix_transcription_errors (lit "question 37 mark") = lit "question 3 7 marks".
Proof. vm_compute. reflexivity. Qed.

Example fix_transcription_errors_first_digit_out :
  fix_transcription_errors (lit "question 90 marks and question 05")
  = lit "question 90 marks and question 05".
Proof. vm_compute. reflexivity. Qed.

(** ** The fuzzy roster matcher *)

Lemma lcs_cons x a y b :
  lcs (x :: a) (y :: b) =
    if bool_decide (x = y) then S (lcs a b)
    else Nat.max (lcs a (y :: b)) (lcs (x :: a) b).
Proof. reflexivity. Qed.

Lemma lcs_nil_r a : lcs a [] = 0%nat.
Proof. destruct a; reflexivity. Qed.

Lemma lcs_le a : ∀ b, (lcs a b ≤ length a ∧ lcs a b ≤ length b)%nat.
Proof.
  induction a as [| x a IHa]; intros b; [simpl; lia |].
  induction b as [| y b IHb]; [rewrite lcs_nil_r; simpl; lia |].
  rewrite lcs_cons. case_bool_decide.
  - specialize (IHa b). simpl. lia.
  - specialize (IHa (y :: b)). simpl in *. lia.
Qed.

Lemma lcs_refl a : lcs a a = length a.
Proof.
  induction a as [| x a IH]; [reflexivity |].
  rewrite lcs_cons, bool_decide_eq_true_2 by reflexivity.
  simpl. now rewrite IH.
Qed.

Lemma lcs_full a : ∀ b, lcs a b = length a → length a = length b → a = b.
Proof.
  induction a as [| x a IH]; intros [| y b] Hl Hlen; try discriminate;
    [reflexivity |].
  rewrite lcs_cons in Hl. simpl in Hlen, Hl. case_bool_decide as Hxy.
  - subst y. f_equal. apply IH; lia.
  - pose proof (lcs_le a (y :: b)) as [H1 _].
    pose proof (lcs_le (x :: a) b) as [_ H2]. simpl in *. lia.
Qed.

Lemma ratio_le_100 a b : (ratio a b <= 100)%Q.
Proof.
  unfold ratio. destruct (length a + length b)%nat as [| n] eqn:Hn.
  - apply Qle_refl.
  - unfold Qle. cbn [Qnum Qden]. rewrite Zpos_P_of_succ_nat.
    pose proof (lcs_le a b). lia.
Qed.

Lemma ratio_refl a : (100 <= ratio a a)%Q.
Proof.
  unfold ratio. destruct (length a + length a)%nat as [| n] eqn:Hn.
  - apply Qle_refl.
  - unfold Qle. cbn [Qnum Qden]. rewrite Zpos_P_of_succ_nat, lcs_refl. lia.
Qed.

Lemma ratio_100_eq a b : (100 <= ratio a b)%Q → a = b.
Proof.
  unfold ratio. destruct (length a + length b)%nat as [| n] eqn:Hn.
  - intros _. destruct a, b; try discriminate. reflexivity.
  - unfold Qle. cbn [Qnum Qden]. rewrite Zpos_P_of_succ_nat. intros H.
    pose proof (lcs_le a b). apply lcs_full; lia.
Qed.

(** What [extractOne] returns: a choice that reaches the cutoff and that no
    choice outscores, or nothing when every choice is below the cutoff. *)
Lemma extractOne_from_Some q c choices : ∀ best k s,
  (∀ k0 s0, best = Some (k0, s0) → s0 = ratio q k0 ∧ (c <= s0)%Q) →
  extractOne_from q choices c best = Some (k, s) →
  s = ratio q k ∧ (c <= s)%Q ∧ (k ∈ choices ∨ best = Some (k, s)) ∧
  (∀ k', k' ∈ choices → (ratio q k' <= s)%Q) ∧
  (∀ k0 s0, best = Some (k0, s0) → (s0 <= s)%Q).
Proof.
  induction choices as [| choice rest IH]; intros best k s Hbest H; simpl in H.
  - subst best. destruct (Hbest k s eq_refl) as [-> Hc].
    repeat split; auto.
    + intros k' Hk'. apply elem_of_nil in Hk'. contradiction.
    + intros k0 s0 [= -> ->]. apply Qle_refl.
  - apply IH in H.
    + destruct H as (-> & Hc & Hin & Hmax & Hmono).
      destruct (Qle_bool c (ratio q choice)) eqn:Hcut; simpl in *.
      * destruct best as [[k0 s0] |].
        -- destruct (Qle_bool (ratio q choice) s0) eqn:Hle; simpl in *.
           ++ apply Qle_bool_iff in Hle.
              repeat split; auto.
              ** destruct Hin; [left; now apply elem_of_cons; right | now right].
              ** intros k' Hk'. apply elem_of_cons in Hk' as [-> | Hk']; auto.
                 eapply Qle_trans; [exact Hle | eapply Hmono; reflexivity].
           ++ assert (s0 <= ratio q choice)%Q as Hlt.
              { apply Qlt_le_weak, Qnot_le_lt. intros Hc'.
                apply Qle_bool_iff in Hc'. congruence. }
              repeat split; auto.
              ** destruct Hin as [Hin | [= -> _]]; left; apply elem_of_cons; auto.
              ** intros k' Hk'. apply elem_of_cons in Hk' as [-> | Hk']; auto.
                 eapply Hmono; reflexivity.
              ** intros k1 s1 [= -> ->].
                 eapply Qle_trans; [exact Hlt | eapply Hmono; reflexivity].
        -- repeat split; auto.
           ++ destruct Hin as [Hin | [= -> _]]; left; apply elem_of_cons; auto.
           ++ intros k' Hk'. apply elem_of_cons in Hk' as [-> | Hk']; auto.
              eapply Hmono; reflexivity.
           ++ intros k0 s0 [=].
      * repeat split; auto.
        -- destruct Hin; [left; now apply elem_of_cons; right | now right].
        -- intros k' Hk'. apply elem_of_cons in Hk' as [-> | Hk']; auto.
           assert (ratio q choice <= c)%Q as Hlow.
           { apply Qlt_le_weak, Qnot_le_lt. intros Hc'.
             apply Qle_bool_iff in Hc'. congruence. }
           eapply Qle_trans; [exact Hlow | exact Hc].
    + intros k0 s0.
      destruct (Qle_bool c (ratio q choice)) eqn:Hcut; simpl.
      * destruct best as [[k1 s1] |];
          [destruct (Qle_bool (ratio q choice) s1); simpl |].
        -- intros [= -> ->]. now apply Hbest.
        -- intros [= <- <-]. split; [reflexivity | now apply Qle_bool_iff].
        -- intros [= <- <-]. split; [reflexivity | now apply Qle_bool_iff].
      * apply Hbest.
Qed.

Lemma extractOne_from_None q c choices : ∀ best,
  (∀ k', k' ∈ choices → (ratio q k' < c)%Q) →
  extractOne_from q choices c best = best.
Proof.
  induction choices as [| choice rest IH]; intros best Hlow; [reflexivity |].
  simpl. assert (Qle_bool c (ratio q choice) = false) as ->.
  { apply not_true_is_false. rewrite Qle_bool_iff. apply Qlt_not_le.
    apply Hlow, elem_of_cons. now left. }
  simpl. apply IH. intros k' Hk'. apply Hlow, elem_of_cons. now right.
Qed.

Lemma extractOne_from_exact_kept q c choices :
  extractOne_from q choices c (Some (q, ratio q q)) = Some (q, ratio q q).
Proof.
  induction choices as [| choice rest IH]; [reflexivity |].
  simpl. assert (Qle_bool (ratio q choice) (ratio q q) = true) as ->.
  { apply Qle_bool_iff. eapply Qle_trans; [apply ratio_le_100 | apply ratio_refl]. }
  rewrite andb_false_r. exact IH.
Qed.

Lemma extractOne_from_exact q c choices : ∀ best,
  (c <= 100)%Q → q ∈ choices → best_below q best →
  extractOne_from q choices c best = Some (q, ratio q q).
Proof.
  induction choices as [| choice rest IH]; intros best Hc Hin Hbest.
  - apply elem_of_nil in Hin. contradiction.
  - simpl. destruct (decide (choice = q)) as [-> | Hne].
    + assert (Qle_bool c (ratio q q) = true) as ->.
      { apply Qle_bool_iff. eapply Qle_trans; [exact Hc | apply ratio_refl]. }
      simpl. destruct best as [[k s] |]; [| apply extractOne_from_exact_kept].
      destruct Hbest as [-> [-> | Hs]].
      * assert (Qle_bool (ratio q q) (ratio q q) = true) as ->
          by (apply Qle_bool_iff, Qle_refl).
        simpl. apply extractOne_from_exact_kept.
      * assert (Qle_bool (ratio q q) (ratio q k) = false) as ->.
        { apply not_true_is_false. rewrite Qle_bool_iff. intros H.
          apply Hs. eapply Qle_trans; [apply ratio_refl | exact H]. }
        simpl. apply extractOne_from_exact_kept.
    + apply elem_of_cons in Hin as [-> | Hin]; [congruence |].
      apply IH; auto.
      destruct (Qle_bool c (ratio q choice) && _); [| exact Hbest].
      simpl. split; [reflexivity | right].
      intros H. apply ratio_100_eq in H. congruence.
Qed.

Lemma dict_get_set_eq {V} k (v : V) d : dict_get k (dict_set k v d) = Some v.
Proof.
  induction d as [| [k' v'] d IH]; simpl.
  - now rewrite bool_decide_eq_true_2.
  - case_bool_decide as Hk; simpl.
    + now rewrite bool_decide_eq_true_2.
    + now rewrite bool_decide_eq_false_2.
Qed.

Lemma dict_get_set_ne {V} k k' (v : V) d :
  k ≠ k' → dict_get k' (dict_set k v d) = dict_get k' d.
Proof.
  intros Hne. induction d as [| [k0 v0] d IH]; simpl.
  - now rewrite bool_decide_eq_false_2.
  - case_bool_decide as Hk; simpl.
    + subst k0. now rewrite !bool_decide_eq_false_2.
    + case_bool_decide; [reflexivity | exact IH].
Qed.

Lemma dict_get_keys {V} k (d : list (str * V)) :
  is_Some (dict_get k d) ↔ k ∈ dict_keys d.
Proof.
  unfold dict_keys. induction d as [| [k0 v0] d IH]; simpl.
  - split; [intros [? [=]] | intros H; apply elem_of_nil in H; contradiction].
  - rewrite elem_of_cons. case_bool_decide as Hk.
    + split; [intros _; left; congruence | eauto].
    + rewrite IH. split; [tauto | intros [-> | H]; [congruence | exact H]].
Qed.

(** One turn of the loop that builds [choices]. *)
Lemma dict_get_student key st (acc : list (str * student)) :
  dict_get key (dict_set (lower (name st)) st
                  (dict_set (lower (usn st)) st acc))
  = if decide (owns_key key st) then Some st else dict_get key acc.
Proof.
  unfold owns_key.
  destruct (decide (lower (name st) = key)) as [<- | Hn].
  - rewrite dict_get_set_eq. now rewrite decide_True by (now right).
  - rewrite dict_get_set_ne by exact Hn.
    destruct (decide (lower (usn st) = key)) as [<- | Hu].
    + rewrite dict_get_set_eq. now rewrite decide_True by (now left).
    + rewrite dict_get_set_ne by exact Hu.
      now rewrite decide_False by tauto.
Qed.

(** The entry stored under a key is the last roster entry that owns it. *)
Lemma build_choices_from key sts : ∀ acc,
  dict_get key
    (fold_left (fun choices st =>
                  dict_set (lower (name st)) st
                    (dict_set (lower (usn st)) st choices)) sts acc)
  = match last_owner key sts with
    | Some st => Some st
    | None => dict_get key acc
    end.
Proof.
  unfold last_owner.
  induction sts as [| st sts IH]; intros acc; [reflexivity |].
  cbn [fold_left]. rewrite IH, dict_get_student, filter_cons.
  destruct (decide (owns_key key st)); [| reflexivity].
  rewrite last_cons. now destruct (last (filter (owns_key key) sts)).
Qed.

Lemma build_choices_get key sts :
  dict_get key (build_choices sts) = last_owner key sts.
Proof.
  unfold build_choices. rewrite build_choices_from.
  now destruct (last_owner key sts).
Qed.

Lemma last_owner_is_Some key sts st :
  st ∈ sts → owns_key key st → is_Some (last_owner key sts).
Proof.
  intros Hin Hown. unfold last_owner. apply last_is_Some.
  intros Hnil. eapply filter_nil_not_elem_of; eauto.
Qed.

Lemma last_owner_owns key sts st :
  last_owner key sts = Some st → st ∈ sts ∧ owns_key key st.
Proof.
  unfold last_owner. intros H. apply last_Some_elem_of in H.
  apply list_elem_of_filter in H. tauto.
Qed.

(** C8, as stated, fails: two students share a name; the identifier equals
    the name of the first one, and the matcher resolves it to the second. *)
Lemma fuzzy_find_student_shared_name :
  let john1 := {| student_id := 1; usn := lit "24CS001"; name := lit "John" |} in
  let john2 := {| student_id := 2; usn := lit "24CS002"; name := lit "John" |} in
  lower (name john1) = lower (lit "john") ∧
  fuzzy_find_student [john1; john2] (lit "john") = Some john2 ∧
  fuzzy_find_student [john1; john2] (lit "john") ≠ Some john1.
Proof. vm_compute. repeat split; try reflexivity. discriminate. Qed.

(** C8, amended.  An identifier that equals, ignoring case, the roll number
    or the name of some roster entry resolves to the entry stored under
    that key in the lookup, which is the last roster entry that has the key
    as its roll number or name: that entry itself when no other entry
    shares the key.  In every case an entry is returned only if it is
    stored under a best-scoring lookup key and that score is at least 70;
    when every lookup key scores below 70 the matcher reports not found. *)
Theorem fuzzy_find_student_spec (sts : list student) (identifier : str) :
  let key := lower identifier in
  (∀ st, st ∈ sts → owns_key key st →
     is_Some (last_owner key sts) ∧
     fuzzy_find_student sts identifier = last_owner key sts ∧
     ((∀ st', st' ∈ sts → owns_key key st' → st' = st) →
      fuzzy_find_student sts identifier = Some st)) ∧
  (∀ st, fuzzy_find_student sts identifier = Some st →
     ∃ k, last_owner k sts = Some st ∧ (70 <= ratio key k)%Q ∧
          ∀ st', st' ∈ sts →
                 (ratio key (lower (usn st')) <= ratio key k)%Q ∧
                 (ratio key (lower (name st')) <= ratio key k)%Q) ∧
  ((∀ st', st' ∈ sts →
           (ratio key (lower (usn st')) < 70)%Q ∧
           (ratio key (lower (name st')) < 70)%Q) →
   fuzzy_find_student sts identifier = None).
Proof.
  intros key.
  assert (∀ k, k ∈ dict_keys (build_choices sts) ↔
               ∃ st, st ∈ sts ∧ owns_key k st) as Hkeys.
  { intros k. rewrite <- dict_get_keys, build_choices_get. split.
    - intros [st Hst]. exists st. now apply last_owner_owns.
    - intros (st & Hin & Hown). eapply last_owner_is_Some; eauto. }
  split; [| split].
  - intros st Hin Hown.
    pose proof (last_owner_is_Some key sts st Hin Hown) as Hsome.
    assert (fuzzy_find_student sts identifier = last_owner key sts) as Hfind.
    { unfold fuzzy_find_student.
      destruct sts as [| st0 sts0] eqn:Hsts;
        [apply elem_of_nil in Hin; contradiction |].
      rewrite <- Hsts in *. fold key. unfold extractOne.
      rewrite extractOne_from_exact.
      - apply build_choices_get.
      - unfold Qle. simpl. lia.
      - apply Hkeys. eauto.
      - exact I. }
    repeat split; auto.
    intros Huniq. rewrite Hfind. destruct Hsome as [st' Hst'].
    rewrite Hst'. f_equal. apply last_owner_owns in Hst' as [? ?]. auto.
  - intros st. unfold fuzzy_find_student.
    destruct sts as [| st0 sts0] eqn:Hsts; [discriminate |].
    rewrite <- Hsts in *. fold key.
    destruct (extractOne key (dict_keys (build_choices sts)) 70)
      as [[k s] |] eqn:Hone; [| discriminate].
    intros Hget. rewrite build_choices_get in Hget.
    apply extractOne_from_Some in Hone; [| intros ? ? [=]].
    destruct Hone as (-> & Hcut & _ & Hmax & _).
    exists k. repeat split; auto; apply Hmax, Hkeys; exists st';
      (split; [assumption |]); [now left | now right].
  - intros Hlow. unfold fuzzy_find_student.
    destruct sts as [| st0 sts0] eqn:Hsts; [reflexivity |].
    rewrite <- Hsts in *. fold key. unfold extractOne.
    rewrite extractOne_from_None; [reflexivity |].
    intros k Hk. apply Hkeys in Hk as (st & Hin & [<- | <-]);
      now apply Hlow.
Qed.

Lemma fuzzy_find_student_spec_witness :
  fuzzy_find_student [aloha] (lit "ALOHA SMITH") = Some aloha.
Proof.
  refine (proj2 (proj2 (proj1 (fuzzy_find_student_spec
                                 [aloha] (lit "ALOHA SMITH")) aloha _ _)) _).
  - apply list_elem_of_singleton. reflexivity.
  - right. vm_compute. reflexivity.
  - intros st' H _. apply list_elem_of_singleton in H. exact H.
Defined.

(** The matcher on the misspelling of the specification's scenario: the
    whole name is within the cutoff, the first name alone is not. *)
Example fuzzy_find_student_misspelled :
  fuzzy_find_student [aloha] (lit "Aloka Smith") = Some aloha ∧
  fuzzy_find_student [aloha] (lit "Aloka") = None.
Proof. vm_compute. split; reflexivity. Qed.

(** ** The matcher: what a successful match went through *)

Lemma cap_lookup_cons_ne i g v cs :
  g ≠ i → cap_lookup g ((i, v) :: cs) = cap_lookup g cs.
Proof.
  intros Hne. simpl. destruct (Nat.eqb_spec i g); [congruence | reflexivity].
Qed.

Lemma cap_lookup_cons_eq i v cs : cap_lookup i ((i, v) :: cs) = Some v.
Proof. simpl. now rewrite Nat.eqb_refl. Qed.

Lemma star_loop_passes_on gs step greedy :
  passes_on gs step → ∀ fuel, passes_on gs (star_loop step greedy fuel).
Proof.
  intros Hstep fuel. induction fuel as [| fuel IH]; intros s cs k x H.
  - simpl in H. exists s, cs. auto.
  - simpl in H.
    assert (step s cs (fun s' cs' =>
              if (length s' <? length s)%nat
              then star_loop step greedy fuel s' cs' k else None) = Some x
            ∨ k s cs = Some x) as [Hagain | Hk].
    { destruct greedy.
      - destruct (step s cs _) as [x0 |]; [left | right]; congruence.
      - destruct (k s cs) as [x0 |]; [right | left]; congruence. }
    + apply Hstep in Hagain as (s1 & cs1 & H1 & Hlen1 & Hcs1).
      destruct (length s1 <? length s)%nat; [| discriminate].
      apply IH in H1 as (s2 & cs2 & H2 & Hlen2 & Hcs2).
      exists s2, cs2. repeat split; [exact H2 | lia |].
      intros g Hg. rewrite Hcs2, Hcs1; auto.
    + exists s, cs. auto.
Qed.

Lemma m_passes_on n r : passes_on (groups_of r) (m n r).
Proof.
  induction r as [| c | p | r1 IH1 r2 IH2 | r1 IH1 r2 IH2 | greedy r IH
                  | i r IH | | r IH]; intros s cs k x H; simpl in H.
  - exists s, cs. auto.
  - destruct s as [| a s']; [discriminate |].
    case_bool_decide; [| discriminate].
    exists s', cs. simpl. auto.
  - destruct s as [| a s']; [discriminate |].
    destruct (p a); [| discriminate].
    exists s', cs. simpl. auto.
  - apply IH1 in H as (s1 & cs1 & H1 & Hlen1 & Hcs1).
    apply IH2 in H1 as (s2 & cs2 & H2 & Hlen2 & Hcs2).
    exists s2, cs2. repeat split; [exact H2 | lia |].
    intros g Hg. simpl in Hg. rewrite elem_of_app in Hg.
    rewrite Hcs2, Hcs1; tauto.
  - simpl. assert (m n r1 s cs k = Some x ∨ m n r2 s cs k = Some x) as [H1 | H2]
      by (destruct (m n r1 s cs k); [left | right]; congruence).
    + apply IH1 in H1 as (s1 & cs1 & H1 & Hlen1 & Hcs1).
      exists s1, cs1. repeat split; auto.
      intros g Hg. rewrite elem_of_app in Hg. apply Hcs1. tauto.
    + apply IH2 in H2 as (s1 & cs1 & H1 & Hlen1 & Hcs1).
      exists s1, cs1. repeat split; auto.
      intros g Hg. rewrite elem_of_app in Hg. apply Hcs1. tauto.
  - eapply star_loop_passes_on; eauto.
  - apply IH in H as (s1 & cs1 & H1 & Hlen1 & Hcs1).
    exists s1, ((i, take (length s - length s1) s) :: cs1).
    repeat split; [exact H1 | exact Hlen1 |].
    intros g Hg. simpl in Hg. rewrite elem_of_cons in Hg.
    rewrite cap_lookup_cons_ne by tauto. apply Hcs1. tauto.
  - destruct (length s =? n)%nat; [| discriminate]. exists s, cs. auto.
  - destruct (m n r s cs _); [discriminate |]. exists s, cs. auto.
Qed.

Lemma m_Seq n r1 r2 s cs k :
  m n (Seq r1 r2) s cs k = m n r1 s cs (fun s' cs' => m n r2 s' cs' k).
Proof. reflexivity. Qed.

Lemma m_Bol n s cs k :
  m n Bol s cs k = if (length s =? n)%nat then k s cs else None.
Proof. reflexivity. Qed.

(** A group around [c+] or [c+?]: the captured text starts with the
    character the group started on, which is of the class. *)
Lemma m_group_plus n i greedy p s cs k x :
  m n (Group i (Plus greedy (Cls p))) s cs k = Some x →
  ∃ c s0 s' cs',
    s = c :: s0 ∧ p c = true ∧ (length s' ≤ length s0)%nat ∧
    k s' ((i, take (length s - length s') s) :: cs') = Some x.
Proof.
  simpl. destruct s as [| c s0]; [discriminate |].
  destruct (p c) eqn:Hp; [| discriminate]. intros H.
  apply (star_loop_passes_on [] _ _ (m_passes_on n (Cls p))) in H
    as (s' & cs' & H & Hlen & _).
  exists c, s0, s', cs'. auto.
Qed.

Lemma take_head (c : ascii) s0 (s' : str) :
  (length s' ≤ length s0)%nat →
  ∃ w, take (length (c :: s0) - length s') (c :: s0) = c :: w.
Proof.
  intros Hlen. simpl length.
  replace (S (length s0) - length s')%nat
    with (S (length s0 - length s'))%nat by lia.
  simpl. eauto.
Qed.

(** The parts of a pattern before a given part pass the match on. *)
Lemma m_seqs_skip n pre rest : ∀ s cs k x,
  m n (seqs (pre ++ rest)) s cs k = Some x →
  ∃ s1 cs1, m n (seqs rest) s1 cs1 k = Some x.
Proof.
  induction pre as [| r pre IH]; intros s cs k x H; [eauto |].
  cbn [app seqs] in H. rewrite m_Seq in H.
  apply m_passes_on in H as (s1 & cs1 & H & _ & _). eauto.
Qed.

(** The group of a match of [pre (c+) post] is not empty. *)
Lemma match_here_group_head n pre i greedy p post s x :
  i ∉ groups_of (seqs post) →
  match_here n (seqs (pre ++ Group i (Plus greedy (Cls p)) :: post)) s
  = Some x →
  ∃ c w, group i x = c :: w ∧ p c = true.
Proof.
  intros Hi. unfold match_here.
  destruct (m n _ s [] _) as [[s_end cs_end] |] eqn:H; [| discriminate].
  intros [= <-].
  apply m_seqs_skip in H as (s1 & cs1 & H).
  cbn [seqs] in H. rewrite m_Seq in H.
  apply m_group_plus in H as (c & s0 & s2 & cs2 & -> & Hp & Hlen & H).
  apply m_passes_on in H as (s3 & cs3 & [= <- <-] & _ & Hcs).
  destruct (take_head c s0 s2 Hlen) as [w Hw].
  exists c, w. split; [| exact Hp].
  unfold group. cbn [groups]. rewrite (Hcs i Hi), cap_lookup_cons_eq, Hw.
  reflexivity.
Qed.

(** Anchored at the start: the first group starts with the first character
    of the subject. *)
Lemma match_here_anchored_head n i greedy p post s x :
  i ∉ groups_of (seqs post) →
  match_here n (seqs (Bol :: Group i (Plus greedy (Cls p)) :: post)) s
  = Some x →
  length s = n ∧ ∃ c s0 w, s = c :: s0 ∧ group i x = c :: w.
Proof.
  intros Hi. unfold match_here.
  destruct (m n _ s [] _) as [[s_end cs_end] |] eqn:H; [| discriminate].
  intros [= <-]. cbn [seqs] in H. rewrite m_Seq, m_Bol in H.
  destruct (Nat.eqb_spec (length s) n) as [Hn | Hn]; [| discriminate].
  split; [exact Hn |]. rewrite m_Seq in H.
  apply m_group_plus in H as (c & s0 & s2 & cs2 & -> & Hp & Hlen & H).
  apply m_passes_on in H as (s3 & cs3 & [= <- <-] & _ & Hcs).
  destruct (take_head c s0 s2 Hlen) as [w Hw].
  exists c, s0, w. split; [reflexivity |].
  unfold group. cbn [groups]. rewrite (Hcs i Hi), cap_lookup_cons_eq, Hw.
  reflexivity.
Qed.

(** [search] returns a match at some position of the text. *)
Lemma search_from_inv n r s x :
  search_from n r s = Some x →
  ∃ pre s', s = pre ++ s' ∧ match_here n r s' = Some x.
Proof.
  induction s as [| c s IH]; simpl.
  - destruct (match_here n r []) eqn:H; [| discriminate].
    intros [= <-]. exists [], []. auto.
  - destruct (match_here n r (c :: s)) eqn:H.
    + intros [= <-]. exists [], (c :: s). auto.
    + intros H'. apply IH in H' as (pre & s' & -> & H').
      exists (c :: pre), s'. auto.
Qed.

Lemma search_anchored_head i greedy p post text x :
  i ∉ groups_of (seqs post) →
  search (seqs (Bol :: Group i (Plus greedy (Cls p)) :: post)) text = Some x →
  ∃ c s0 w, text = c :: s0 ∧ group i x = c :: w.
Proof.
  intros Hi H. apply search_from_inv in H as (pre & s' & Htext & H).
  apply match_here_anchored_head in H as (Hlen & c & s0 & w & -> & Hg);
    [| exact Hi].
  rewrite Htext, length_app in Hlen.
  destruct pre; [| simpl in Hlen; lia].
  exists c, s0, w. auto.
Qed.

Lemma search_group_head pre i greedy p post text x :
  i ∉ groups_of (seqs post) →
  search (seqs (pre ++ Group i (Plus greedy (Cls p)) :: post)) text = Some x →
  ∃ c w, group i x = c :: w ∧ p c = true.
Proof.
  intros Hi H. apply search_from_inv in H as (pre' & s' & _ & H).
  eapply match_here_group_head; eauto.
Qed.

(** ** The identifier extractor *)

Lemma lstrip_head s c t : lstrip s = c :: t → is_space c = false.
Proof.
  induction s as [| a s IH]; simpl; [discriminate |].
  destruct (is_space a) eqn:Ha; [exact IH |]. intros [= <- _]. exact Ha.
Qed.

Lemma lstrip_snoc l c :
  is_space c = false → ∃ l', lstrip (l ++ [c]) = l' ++ [c].
Proof.
  intros Hc. induction l as [| a l IH]; simpl.
  - rewrite Hc. exists []. reflexivity.
  - destruct (is_space a); [exact IH |]. exists (a :: l). reflexivity.
Qed.

Lemma rstrip_head c t : is_space c = false → ∃ t', rstrip (c :: t) = c :: t'.
Proof.
  intros Hc. unfold rstrip. simpl rev.
  destruct (lstrip_snoc (rev t) c Hc) as [l' ->].
  rewrite rev_unit. eauto.
Qed.

Lemma strip_head c t : is_space c = false → ∃ t', strip (c :: t) = c :: t'.
Proof.
  intros Hc. unfold strip. simpl. rewrite Hc. now apply rstrip_head.
Qed.

(** A normalized transcript does not start with whitespace. *)
Lemma normalize_head raw :
  normalize raw = [] ∨ ∃ c t, normalize raw = c :: t ∧ is_space c = false.
Proof.
  unfold normalize, strip.
  destruct (lstrip (lower raw)) as [| c t] eqn:H; [left; reflexivity | right].
  apply lstrip_head in H. destruct (rstrip_head c t H) as [t' ->]. eauto.
Qed.

Lemma split_nonempty s : Forall (fun w => w ≠ []) (split s).
Proof.
  induction s as [| c s IH]; simpl; [constructor |].
  destruct (is_space c); [exact IH |].
  destruct s as [| c' s']; [repeat constructor; discriminate |].
  destruct (is_space c'); [constructor; [discriminate | exact IH] |].
  destruct (split (c' :: s')) as [| w ws]; [repeat constructor; discriminate |].
  inversion IH; subst. constructor; [discriminate | assumption].
Qed.

Lemma join_nonempty sep w l : w ≠ [] → join sep (w :: l) ≠ [].
Proof.
  intros Hw. destruct l; simpl; [exact Hw |].
  destruct w; [congruence | discriminate].
Qed.

Lemma join_words_nonempty sep l :
  l ≠ [] → Forall (fun w => w ≠ []) l → join sep l ≠ [].
Proof.
  intros Hl Hall. destruct l as [| w l]; [congruence |].
  inversion Hall; subst. now apply join_nonempty.
Qed.

Lemma Forall_filter_keep {A} (P Q : A → Prop) `{!∀ a, Decision (Q a)} l :
  Forall P l → Forall P (filter Q l).
Proof.
  rewrite !Forall_forall. intros Hall a Ha.
  apply list_elem_of_filter in Ha as [_ Ha]. auto.
Qed.

Lemma clean_name_nonempty x c w :
  group 1 x = c :: w → is_space c = false → clean_name x ≠ [].
Proof.
  intros Hg Hc. unfold clean_name. rewrite Hg.
  destruct (strip_head c w Hc) as [t' Ht]. rewrite Ht.
  destruct (filter _ (split (c :: t'))) as [| p ps] eqn:Hparts; [discriminate |].
  apply join_words_nonempty; [discriminate |].
  rewrite <- Hparts. apply Forall_filter_keep, split_nonempty.
Qed.

Lemma identifier_words_nonempty ws :
  Forall (fun w => w ≠ []) ws → Forall (fun w => w ≠ []) (identifier_words ws).
Proof.
  induction 1 as [| w ws Hw Hws IH]; simpl; [constructor |].
  destruct (in_words (lower w) keywords); [constructor |].
  destruct (_ && _); [constructor; assumption | assumption].
Qed.

Lemma expand_usn_nonempty_digits p d : d ≠ [] → expand_usn p d ≠ [].
Proof.
  intros Hd. unfold expand_usn.
  destruct (bool_decide (p = [])); [exact Hd |].
  destruct (_ && _); intros H; apply app_eq_nil in H as [_ H]; congruence.
Qed.

Lemma expand_usn_nonempty_prefix p d : p ≠ [] → expand_usn p d ≠ [].
Proof.
  intros Hp. unfold expand_usn.
  rewrite bool_decide_eq_false_2 by exact Hp.
  destruct (endswith p (lit "0")); simpl.
  - destruct (Nat.eqb_spec (length d) 3) as [Hd | Hd];
      intros H; apply app_eq_nil in H as [H1 H2]; subst; [discriminate | congruence].
  - intros H; apply app_eq_nil in H as [H1 H2]. congruence.
Qed.

Lemma name_span_head text x :
  search status_pattern text = Some x ∨
  first_match marks_patterns text = Some x →
  ∃ c s0 w, text = c :: s0 ∧ group 1 x = c :: w.
Proof.
  intros [H | H].
  - unfold status_pattern, word_or_space in H.
    eapply (search_anchored_head 1 false _ (_ :: _)); [| exact H].
    not_in_groups.
  - unfold marks_patterns, word_or_space in H. cbn [first_match] in H.
    repeat match type of H with
           | match search ?r text with _ => _ end = _ =>
               let Hs := fresh "Hs" in
               destruct (search r text) eqn:Hs;
                 [ injection H as ->;
                   eapply (search_anchored_head 1 false _ (_ :: _)); [| exact Hs];
                   not_in_groups
                 | ]
           end.
    discriminate.
Qed.

Theorem extract_identifier_nonempty (usn_prefix raw identifier : str) :
  extract_identifier usn_prefix (normalize raw) = Some identifier →
  identifier ≠ [].
Proof.
  unfold extract_identifier.
  destruct (normalize_head raw) as [Hnil | (c & t & Htext & Hc)].
  - rewrite Hnil. destruct usn_prefix; vm_compute; discriminate.
  - generalize dependent (normalize raw). intros text Htext. subst text.
    destruct (search usn_pattern (c :: t)) as [x |] eqn:Husn.
    { apply (search_group_head [Lit (lit "usn"); Plus true ws] 1 true is_word [])
        in Husn as (d & w & Hg & _); [| not_in_groups].
      rewrite Hg. destruct (_ && _); intros [= <-]; [| discriminate].
      now apply expand_usn_nonempty_digits. }
    case_bool_decide as Hp.
    2: { destruct (search digit_pattern (c :: t)) as [x |] eqn:Hdigit.
         - intros [= <-]. now apply expand_usn_nonempty_prefix.
         - destruct (search status_pattern (c :: t)) as [x |] eqn:Hstatus.
           + intros [= <-].
             destruct (name_span_head _ x (or_introl Hstatus))
               as (c' & s0 & w & [= <- <-] & Hg).
             eapply clean_name_nonempty; eauto.
           + destruct (first_match marks_patterns (c :: t)) as [x |] eqn:Hmarks.
             * intros [= <-].
               destruct (name_span_head _ x (or_intror Hmarks))
                 as (c' & s0 & w & [= <- <-] & Hg).
               eapply clean_name_nonempty; eauto.
             * destruct (identifier_words (split (c :: t))) as [| w ws] eqn:Hw;
                 [discriminate |].
               intros [= <-].
               apply (join_words_nonempty (lit " ") (w :: ws)); [discriminate |].
               rewrite <- Hw. apply identifier_words_nonempty, split_nonempty. }
    destruct (search status_pattern (c :: t)) as [x |] eqn:Hstatus.
    + intros [= <-].
      destruct (name_span_head _ x (or_introl Hstatus))
        as (c' & s0 & w & [= <- <-] & Hg).
      eapply clean_name_nonempty; eauto.
    + destruct (first_match marks_patterns (c :: t)) as [x |] eqn:Hmarks.
      * intros [= <-].
        destruct (name_span_head _ x (or_intror Hmarks))
          as (c' & s0 & w & [= <- <-] & Hg).
        eapply clean_name_nonempty; eauto.
      * destruct (identifier_words (split (c :: t))) as [| w ws] eqn:Hw;
          [discriminate |].
        intros [= <-].
               apply (join_words_nonempty (lit " ") (w :: ws)); [discriminate |].
        rewrite <- Hw. apply identifier_words_nonempty, split_nonempty.
Qed.

(** *** The lazy name span ends where the pattern first goes on *)

Lemma is_Some_or_else {A} (a b : option A) :
  is_Some (match a with Some x => Some x | None => b end) ↔
  is_Some a ∨ is_Some b.
Proof.
  destruct a; split; eauto. intros [[? [=]] | H]; exact H.
Qed.

Lemma star_loop_blind step greedy :
  blind step → ∀ fuel, blind (star_loop step greedy fuel).
Proof.
  intros Hstep fuel.
  induction fuel as [| fuel IH]; intros s cs cs' k k' Hk; simpl; [apply Hk |].
  assert (is_Some (step s cs (fun s' cs' =>
             if (length s' <? length s)%nat
             then star_loop step greedy fuel s' cs' k else None)) →
          is_Some (step s cs' (fun s' cs' =>
             if (length s' <? length s)%nat
             then star_loop step greedy fuel s' cs' k' else None))) as Hagain.
  { apply Hstep. intros s1 c1 c1'.
    destruct (length s1 <? length s)%nat; [| intros [? [=]]].
    now apply IH. }
  specialize (Hk s cs cs').
  destruct greedy; rewrite !is_Some_or_else; tauto.
Qed.

Lemma m_blind n r : blind (m n r).
Proof.
  induction r as [| c | p | r1 IH1 r2 IH2 | r1 IH1 r2 IH2 | greedy r IH
                  | i r IH | | r IH]; intros s cs cs' k k' Hk; simpl.
  - apply Hk.
  - destruct s as [| a s']; [auto |]. case_bool_decide; [apply Hk | auto].
  - destruct s as [| a s']; [auto |]. destruct (p a); [apply Hk | auto].
  - apply IH1. intros s1 c1 c1'. now apply IH2.
  - rewrite !is_Some_or_else. intros [H | H]; [left | right].
    + eapply IH1; eauto.
    + eapply IH2; eauto.
  - now apply star_loop_blind.
  - apply IH. intros s1 c1 c1'. apply Hk.
  - destruct (length s =? n)%nat; [apply Hk | auto].
  - destruct (m n r s cs _) as [y |] eqn:H1; [intros [? [=]] |].
    destruct (m n r s cs' _) as [y |] eqn:H2; [| apply Hk].
    assert (is_Some (m n r s cs (fun s' cs'0 => Some (s', cs'0)))) as [z Hz].
    { eapply (IH s cs' cs); [| rewrite H2; eauto].
      intros; eauto. }
    congruence.
Qed.

(** The lazy loop over a class stops at the first position at which the
    continuation succeeds. *)
Lemma lazy_loop_first n p (k : cont) : ∀ fuel s cs x,
  star_loop (m n (Cls p)) false fuel s cs k = Some x →
  ∃ j, (j ≤ length s)%nat ∧ k (drop j s) cs = Some x ∧
       ∀ i, (i < j)%nat → k (drop i s) cs = None.
Proof.
  induction fuel as [| fuel IH]; intros s cs x H; simpl in H.
  - exists 0%nat. repeat split; [lia | exact H | lia].
  - destruct (k s cs) as [y |] eqn:Hk.
    + exists 0%nat. repeat split; [lia | rewrite drop_0; congruence | lia].
    + destruct s as [| a s']; [discriminate |].
      destruct (p a); [| discriminate].
      replace (length s' <? length (a :: s'))%nat with true in H
        by (symmetry; apply Nat.ltb_lt; simpl; lia).
      apply IH in H as (j & Hj & Hkj & Hmin).
      exists (S j). repeat split; [simpl; lia | exact Hkj |].
      intros [| i] Hi; [exact Hk | apply Hmin; lia].
Qed.

(** One more whitespace character in front of a match of [\s+ ...] is
    still a match of it. *)
Lemma m_plus_ws_extend n more e s cs cs' (k : cont) :
  is_space e = true →
  (∀ s1 c1 c1', is_Some (k s1 c1) → is_Some (k s1 c1')) →
  is_Some (m n (seqs (Plus true ws :: more)) s cs k) →
  is_Some (m n (seqs (Plus true ws :: more)) (e :: s) cs' k).
Proof.
  intros He Hk. cbn [seqs]. unfold Plus, ws. rewrite !m_Seq.
  cbn [m]. rewrite He.
  destruct s as [| e2 s2]; [intros [? [=]] |].
  destruct (is_space e2) eqn:He2; [| intros [? [=]]].
  intros H. cbn [length star_loop].
  rewrite He2.
  replace (length s2 <? S (length s2))%nat with true
    by (symmetry; apply Nat.ltb_lt; lia).
  apply is_Some_or_else. left.
  revert H.
  apply (star_loop_blind (m n (Cls is_space)) true (m_blind n (Cls is_space))
           (length s2) s2 cs cs').
  intros s1 c1 c1'. apply m_blind. exact Hk.
Qed.

Lemma rstrip_id g e : last g = Some e → is_space e = false → rstrip g = g.
Proof.
  intros Hlast He. apply last_Some in Hlast as [g' ->].
  unfold rstrip. rewrite rev_unit. simpl. rewrite He.
  rewrite <- rev_unit. apply rev_involutive.
Qed.

(** The name span of an anchored pattern whose next part is [\s+] has no
    whitespace at either end, when the text does not start with one. *)
Lemma match_here_name_span_trimmed n p more c s0 x :
  1%nat ∉ groups_of (seqs (Plus true ws :: more)) →
  is_space c = false →
  match_here n (seqs (Bol :: Group 1 (Plus false (Cls p)) ::
                      Plus true ws :: more)) (c :: s0) = Some x →
  strip (group 1 x) = group 1 x.
Proof.
  intros Hi Hc. unfold match_here.
  destruct (m n _ (c :: s0) [] _) as [[s_end cs_end] |] eqn:H; [| discriminate].
  intros [= <-]. cbn [seqs] in H. rewrite m_Seq, m_Bol in H.
  destruct (length (c :: s0) =? n)%nat; [| discriminate].
  rewrite m_Seq in H. unfold Plus at 1 in H. cbn [m] in H.
  destruct (p c); [| discriminate].
  apply (lazy_loop_first n p) in H as (j & Hj & H & Hmin).
  assert (length (c :: s0) - length (drop j s0) = S j)%nat as Hlen
    by (rewrite length_drop; simpl; lia).
  rewrite Hlen in H. cbn [take] in H.
  pose proof H as Hend.
  apply (m_passes_on n (Seq (Plus true ws) (seqs more))) in Hend
    as (s3 & cs3 & [= <- <-] & _ & Hcs).
  unfold group. cbn [groups].
  rewrite (Hcs 1%nat Hi), cap_lookup_cons_eq. cbn [from_option id].
  unfold strip. cbn [lstrip]. rewrite Hc.
  destruct j as [| j];
    [rewrite take_0; apply (rstrip_id [c] c); [reflexivity | exact Hc] |].
  destruct (s0 !! j) as [e |] eqn:Hej;
    [| apply lookup_ge_None in Hej; lia].
  rewrite (take_S_r _ _ _ Hej).
  apply (rstrip_id _ e);
    [rewrite app_comm_cons; apply last_snoc |].
  destruct (is_space e) eqn:He; [exfalso | reflexivity].
  specialize (Hmin j (Nat.lt_succ_diag_r j)).
  assert (length (c :: s0) - length (drop j s0) = S j)%nat as Hlen'
    by (rewrite length_drop; apply lookup_lt_Some in Hej; simpl; lia).
  rewrite Hlen' in Hmin.
  rewrite (drop_S _ _ _ Hej) in Hmin.
  assert (is_Some (m n (seqs (Plus true ws :: more)) (e :: drop (S j) s0)
                     [(1%nat, take (S j) (c :: s0))]
                     (fun s' cs' => Some (s', cs')))) as [y Hy].
  { apply (m_plus_ws_extend n more e _ [(1%nat, c :: take (S j) s0)]);
      [exact He | intros s1 c1 c1' _; exists (s1, c1'); reflexivity |].
    cbn [seqs]. rewrite m_Seq, H. exists (s3, cs3). reflexivity. }
  cbn [seqs] in Hy. rewrite m_Seq in Hy. congruence.
Qed.

Lemma match_here_anchored_length n rest s x :
  match_here n (seqs (Bol :: rest)) s = Some x → length s = n.
Proof.
  unfold match_here. cbn [seqs]. rewrite m_Seq, m_Bol.
  destruct (Nat.eqb_spec (length s) n); [auto | discriminate].
Qed.

Lemma search_anchored_here rest text x :
  search (seqs (Bol :: rest)) text = Some x →
  match_here (length text) (seqs (Bol :: rest)) text = Some x.
Proof.
  intros H. apply search_from_inv in H as (pre & s' & Htext & H).
  pose proof (match_here_anchored_length _ _ _ _ H) as Hlen.
  rewrite Htext, length_app in Hlen.
  destruct pre; [| simpl in Hlen; lia]. subst text. exact H.
Qed.

(** The name captured from a text without leading whitespace has no
    whitespace around it: [strip] leaves it as it is. *)
Lemma name_match_trimmed c t x :
  is_space c = false → name_match (c :: t) = Some x →
  strip (group 1 x) = group 1 x.
Proof.
  intros Hc. unfold name_match, status_pattern, marks_patterns, word_or_space.
  cbn [first_match].
  repeat match goal with
         | |- match search ?r ?text with _ => _ end = _ → _ =>
             let Hs := fresh "Hs" in
             destruct (search r text) eqn:Hs;
               [ intros [= ->]; apply search_anchored_here in Hs;
                 eapply match_here_name_span_trimmed; [| exact Hc | exact Hs];
                 not_in_groups
               | ]
         end.
  discriminate.
Qed.

Lemma filter_noise_nil ws :
  Forall is_noise ws →
  filter (fun w => in_words (lower w) noise_words = false) ws = [].
Proof.
  induction 1 as [| w ws Hw Hws IH]; [reflexivity |].
  rewrite filter_cons_False; [exact IH |].
  unfold in_words. rewrite bool_decide_eq_true_2 by exact Hw. discriminate.
Qed.

(** C10.  On every normalized transcript (lowercased and trimmed, which
    is how both commands pass it) the identifier extractor never yields the
    empty string, whichever rule produced the identifier.  When no roll
    number rule applies and the name span captured before [is present] or
    [is absent] (or before [scored], [has], [ia1], [ia2]) consists of stop
    words only, the extractor returns that span as it was captured, stop
    words included, and not the empty string or nothing. *)
Theorem extract_identifier_normalized (usn_prefix raw : str) :
  let text := normalize raw in
  (∀ identifier,
     extract_identifier usn_prefix text = Some identifier → identifier ≠ []) ∧
  (∀ x,
     search usn_pattern text = None →
     usn_prefix = [] ∨ search digit_pattern text = None →
     name_match text = Some x →
     Forall is_noise (split (group 1 x)) →
     extract_identifier usn_prefix text = Some (group 1 x) ∧
     group 1 x ≠ []).
Proof.
  intros text. split; [intros identifier; apply extract_identifier_nonempty |].
  intros x Husn Hdigit Hname Hnoise.
  assert (extract_identifier usn_prefix text = Some (group 1 x)) as Hres.
  { subst text.
    destruct (normalize_head raw) as [Hnil | (c & t & Htext & Hc)];
      [rewrite Hnil in Hname; vm_compute in Hname; discriminate |].
    rewrite Htext in *.
    pose proof (name_match_trimmed c t x Hc Hname) as Htrim.
    unfold extract_identifier. rewrite Husn.
    assert ((if bool_decide (usn_prefix = []) then None
             else search digit_pattern (c :: t)) = None) as ->
      by (destruct Hdigit as [-> | ->]; [reflexivity | now case_bool_decide]).
    assert (clean_name x = group 1 x) as Hclean.
    { unfold clean_name. rewrite Htrim, filter_noise_nil by exact Hnoise.
      reflexivity. }
    unfold name_match in Hname.
    destruct (search status_pattern (c :: t)) as [y |].
    - injection Hname as ->. now rewrite Hclean.
    - rewrite Hname. now rewrite Hclean. }
  split; [exact Hres |].
  eapply extract_identifier_nonempty. exact Hres.
Qed.

Lemma extract_identifier_normalized_witness :
  extract_identifier [] (normalize (lit " The is present "))
  = Some (lit "the").
Proof.
  refine (proj1 (proj2 (extract_identifier_normalized [] (lit " The is present "))
                   {| whole := lit "the is present";
                      groups := [(2%nat, lit "present"); (1%nat, lit "the")] |}
                   _ _ _ _)).
  - vm_compute. reflexivity.
  - left. reflexivity.
  - vm_compute. reflexivity.
  - vm_compute. repeat constructor.
Defined.

(** ** The scenarios of the specification, evaluated *)

Example scenario_usn_two_digits :
  extract_identifier (lit "1GA23CI0") (normalize (lit "usn 24 is present"))
  = Some (lit "1GA23CI024").
Proof. vm_compute. reflexivity. Qed.

Example scenario_usn_three_digits :
  extract_identifier (lit "1GA23CI0") (normalize (lit "usn 106 is absent"))
  = Some (lit "1GA23CI106").
Proof. vm_compute. reflexivity. Qed.

Example scenario_bare_digits :
  extract_identifier (lit "1GA23CI0") (normalize (lit "24 is present"))
  = Some (lit "1GA23CI024").
Proof. vm_compute. reflexivity. Qed.

Example scenario_attendance_recorded :
  let r := process_text_command [] (lit "Aloha Smith is present")
             (lit "attendance") (Some (lit "2024-01-01")) None (start roster) in
  fst r = {| success := true;
             message := lit "Aloha Smith (24CS001) marked Present for 2024-01-01" |} ∧
  attendance (db (snd r))
  = [{| ar_student_id := 1; ar_date := lit "2024-01-01";
        ar_status := lit "Present" |}].
Proof. vm_compute. split; reflexivity. Qed.

Example scenario_marks_recorded :
  let r := process_text_command [] (lit "Aloha Smith IA1: Q1-8, Q3-7, Q6-9, Q8-8")
             (lit "marks") None (Some (lit "IA1")) (start roster) in
  fst r = {| success := true;
             message := lit "Aloha Smith (24CS001) - IA1: Q1=8, Q3=7, Q6=9, Q8=8, Total: 32/40" |} ∧
  log (snd r)
  = [EvExtractIdentifier (lit "aloha smith ia1: q1-8, q3-7, q6-9, q8-8");
     EvFuzzyFind (lit "aloha smith");
     EvExtractMarks (lit "aloha smith ia1: q1-8, q3-7, q6-9, q8-8");
     EvInsertMarks 1 (Some (lit "IA1"))
       (list_to_map [(1, 8); (3, 7); (6, 9); (8, 8)]) 32] ∧
  ia_marks (db (snd r))
  = [{| mr_student_id := 1; mr_ia_type := lit "IA1";
        mr_q_marks := [Some 8; None; Some 7; None; None; Some 9; None; Some 8];
        mr_total_marks := 32 |}].
Proof. vm_compute. repeat split; reflexivity. Qed.

Example scenario_both_of_a_pair :
  let r := process_text_command [] (lit "Aloha Smith IA1: Q1-8, Q2-7, Q6-9, Q8-8")
             (lit "marks") None (Some (lit "IA1")) (start roster) in
  fst r = failure (lit "Invalid question combination. Must select one from each pair: (Q1/Q2), (Q3/Q4), (Q5/Q6), (Q7/Q8)") ∧
  db (snd r) = roster.
Proof. vm_compute. split; reflexivity. Qed.

(** A command without a date fails at its INSERT and leaves its connection
    open; the valid command that follows finds the store locked. *)
Example scenario_locked_after_failed_write :
  let r1 := process_text_command [] (lit "Aloha Smith is present")
              (lit "attendance") None None (start roster) in
  let r2 := process_text_command [] (lit "Aloha Smith is present")
              (lit "attendance") (Some (lit "2024-01-01")) None (snd r1) in
  fst r1 = failure (lit "Error recording attendance: NOT NULL constraint failed: attendance.date") ∧
  pending (snd r1) = true ∧
  fst r2 = failure (lit "Error recording attendance: database is locked") ∧
  db (snd r2) = roster.
Proof. vm_compute. repeat split; reflexivity. Qed.

(** A mark outside 0..10 fails the CHECK of its column; an integer that
    does not fit in 64 bits is refused before the statement runs, and
    then nothing is left open. *)
Example scenario_mark_out_of_range :
  let r := record_ia_marks 1 (Some (lit "IA1"))
             (list_to_map [(1, 8); (3, 11); (6, 9); (8, 8)]) 36 (start roster) in
  fst r = (false, lit "Error recording marks: CHECK constraint failed: q3_marks >= 0 AND q3_marks <= 10") ∧
  pending (snd r) = true.
Proof. vm_compute. split; reflexivity. Qed.

Example scenario_integer_too_large :
  let r := record_attendance (2 ^ 63) (Some (lit "2024-01-01"))
             (lit "Present") (start roster) in
  fst r = (false, lit "Error recording attendance: Python int too large to convert to SQLite INTEGER") ∧
  pending (snd r) = false ∧ db (snd r) = roster.
Proof. vm_compute. repeat split; reflexivity. Qed.

(** * Further properties of the code *)

(** ** What a command writes *)

(** X1.  A command changes at most its own table, and only when it
    succeeds: the roster is never changed, an attendance command leaves
    the marks and a marks command the attendance as they are, and after a
    failure, of whatever kind, the whole store is as before. *)
Theorem process_text_command_writes
    (usn_prefix text command_type : str) (date ia_type : option str)
    (w : world) :
  let r := process_text_command usn_prefix text command_type date ia_type w in
  students (db (snd r)) = students (db w) ∧
  (command_type ≠ lit "marks" → ia_marks (db (snd r)) = ia_marks (db w)) ∧
  (command_type ≠ lit "attendance" →
   attendance (db (snd r)) = attendance (db w)) ∧
  (success (fst r) = false → db (snd r) = db w).
Proof.
  unfold process_text_command.
  case_bool_decide as Ha; [| case_bool_decide as Hm].
  - subst command_type. unfold process_attendance_command.
    command_cases; repeat split; try reflexivity; try discriminate;
      intros; congruence.
  - subst command_type. unfold process_marks_command.
    command_cases; repeat split; try reflexivity; try discriminate;
      intros; congruence.
  - run_monad. repeat split; reflexivity.
Qed.

Lemma process_text_command_writes_witness :
  db (snd (process_text_command [] (lit "bob is present") (lit "attendance")
             (Some (lit "2024-01-01")) None (start roster))) = roster.
Proof.
  refine (proj2 (proj2 (proj2 (process_text_command_writes _ _ _ _ _ _))) _).
  vm_compute. reflexivity.
Defined.

(** The matcher returns a student of the roster. *)
Lemma fuzzy_find_student_elem sts identifier st :
  fuzzy_find_student sts identifier = Some st → st ∈ sts.
Proof.
  unfold fuzzy_find_student. destruct sts as [| st0 sts0] eqn:Hsts;
    [discriminate |].
  rewrite <- Hsts.
  destruct (extractOne _ _ _) as [[k s] |]; [| discriminate].
  rewrite build_choices_get. intros H. now apply last_owner_owns in H.
Qed.

Lemma insert_attendance_inl rows sid date status rows' :
  insert_attendance rows sid date status = inl rows' →
  ∃ d, date = Some d ∧
       rows' = filter (fun r => ¬ (ar_student_id r = sid ∧ ar_date r = d)) rows ++
               [{| ar_student_id := sid; ar_date := d; ar_status := status |}].
Proof.
  unfold insert_attendance. destruct date as [d |]; [| discriminate].
  destruct (negb _); [discriminate |]. intros [= <-]. eauto.
Qed.

Lemma get_attendance_by_date_elem d date a s :
  a ∈ attendance d → ar_date a = date →
  s ∈ students d → student_id s = ar_student_id a →
  {| USN := usn s; Name := name s; Status := ar_status a |}
  ∈ get_attendance_by_date d date.
Proof.
  intros Ha Hdate Hs Hid. unfold get_attendance_by_date.
  rewrite merge_sort_Permutation. unfold attendance_join.
  apply list_elem_of_In, in_flat_map. exists a.
  split; [now apply list_elem_of_In |].
  rewrite bool_decide_eq_true_2 by exact Hdate.
  apply in_map_iff. exists s. split; [reflexivity |].
  apply list_elem_of_In, list_elem_of_filter. auto.
Qed.

(** X2.  An attendance command that succeeds has matched a student of the
    roster and found a status; the attendance table is then the old one
    without the row of that student and date, followed by the new row, and
    [get_attendance_by_date] for that date lists the student's roll
    number and name with the recorded status. *)
Theorem attendance_recorded_is_listed
    (usn_prefix text : str) (date : option str) (w : world) :
  let t := normalize text in
  let r := process_attendance_command usn_prefix text date w in
  success (fst r) = true →
  ∃ identifier st status d,
    extract_identifier usn_prefix t = Some identifier ∧
    fuzzy_find_student (students (db w)) identifier = Some st ∧
    st ∈ students (db w) ∧
    extract_attendance_status t = Some status ∧
    date = Some d ∧
    attendance (db (snd r)) =
      filter (fun a => ¬ (ar_student_id a = student_id st ∧ ar_date a = d))
             (attendance (db w)) ++
      [{| ar_student_id := student_id st; ar_date := d; ar_status := status |}] ∧
    {| USN := usn st; Name := name st; Status := status |}
    ∈ get_attendance_by_date (db (snd r)) d.
Proof.
  unfold process_attendance_command, normalize.
  command_cases; try discriminate. intros _.
  match goal with
  | H : insert_attendance _ _ _ _ = inl _ |- _ =>
      apply insert_attendance_inl in H as (d & -> & ->)
  end.
  match goal with
  | H : fuzzy_find_student _ _ = Some ?st |- _ =>
      pose proof (fuzzy_find_student_elem _ _ _ H) as Hin
  end.
  do 4 eexists. repeat split; eauto.
  eapply (get_attendance_by_date_elem _ d
            {| ar_student_id := _; ar_date := d; ar_status := _ |});
    cbn [attendance students ar_date ar_student_id db]; auto.
  apply elem_of_app. right. apply list_elem_of_singleton. reflexivity.
Qed.

Lemma attendance_recorded_is_listed_witness :
  let w := start roster in
  let r := process_attendance_command [] (lit "Aloha Smith is absent")
             (Some (lit "2024-01-01")) w in
  success (fst r) = true ∧
  ∃ identifier st status d,
    extract_identifier [] (normalize (lit "Aloha Smith is absent"))
    = Some identifier ∧
    fuzzy_find_student (students (db w)) identifier = Some st ∧
    st ∈ students (db w) ∧
    extract_attendance_status (normalize (lit "Aloha Smith is absent"))
    = Some status ∧
    Some (lit "2024-01-01") = Some d ∧
    attendance (db (snd r)) =
      filter (fun a => ¬ (ar_student_id a = student_id st ∧ ar_date a = d))
             (attendance (db w)) ++
      [{| ar_student_id := student_id st; ar_date := d; ar_status := status |}] ∧
    {| USN := usn st; Name := name st; Status := status |}
    ∈ get_attendance_by_date (db (snd r)) d.
Proof.
  intros w r.
  assert (success (fst r) = true) as H by (vm_compute; reflexivity).
  split; [exact H |].
  exact (attendance_recorded_is_listed [] (lit "Aloha Smith is absent")
           (Some (lit "2024-01-01")) w H).
Defined.

(** ** Insert-or-replace *)


Lemma filter_none {A} (P : A → Prop) `{!∀ a, Decision (P a)} l :
  (∀ a, a ∈ l → ¬ P a) → filter P l = [].
Proof.
  induction l as [| a l IH]; intros Hl; [reflexivity |].
  rewrite filter_cons_False by (apply Hl; left).
  apply IH. intros b Hb. apply Hl. now right.
Qed.







(** ** Totals and the rows of [ia_marks] *)

Lemma sum_values_empty : sum_values ∅ = 0.
Proof. unfold sum_values. apply map_fold_empty. Qed.

Lemma sum_values_insert (m : gmap Z Z) k v :
  m !! k = None → sum_values (<[k := v]> m) = v + sum_values m.
Proof.
  intros Hk. unfold sum_values. apply map_fold_insert_L; [| exact Hk].
  intros. lia.
Qed.

(** The sum of the values lies between 0 and 10 for each entry. *)
Lemma sum_values_bounds (m : gmap Z Z) :
  map_Forall (fun _ v => 0 ≤ v ≤ 10) m →
  0 ≤ sum_values m ≤ 10 * Z.of_nat (size m).
Proof.
  induction m as [| k v m Hk IH] using map_ind; intros Hall.
  - rewrite sum_values_empty, map_size_empty. lia.
  - apply map_Forall_insert in Hall as [Hv Hall]; [| exact Hk].
    rewrite sum_values_insert, map_size_insert_None by exact Hk.
    specialize (IH Hall). lia.
Qed.

Lemma entries_in_range_values (m : gmap Z Z) :
  entries_in_range m → map_Forall (fun _ v => 0 ≤ v ≤ 10) m.
Proof. intros H k v Hkv. apply (H k v Hkv). Qed.

Lemma sum_at_cons (m : gmap Z Z) q keys :
  sum_at m (q :: keys) = default 0 (m !! q) + sum_at m keys.
Proof. reflexivity. Qed.

Lemma sum_at_insert_out (m : gmap Z Z) k v keys :
  k ∉ keys → sum_at (<[k := v]> m) keys = sum_at m keys.
Proof.
  induction keys as [| q keys IH]; intros Hk; [reflexivity |].
  apply not_elem_of_cons in Hk as [Hq Hk].
  rewrite !sum_at_cons, lookup_insert_ne by exact Hq. now rewrite IH.
Qed.

Lemma sum_at_insert_in (m : gmap Z Z) k v keys :
  NoDup keys → k ∈ keys → m !! k = None →
  sum_at (<[k := v]> m) keys = v + sum_at m keys.
Proof.
  induction 1 as [| q keys Hq Hnd IH]; intros Hk Hm.
  - apply elem_of_nil in Hk. contradiction.
  - rewrite !sum_at_cons. destruct (decide (q = k)) as [-> | Hne].
    + rewrite lookup_insert_eq, Hm, sum_at_insert_out by exact Hq.
      simpl. lia.
    + rewrite lookup_insert_ne by congruence.
      apply elem_of_cons in Hk as [-> | Hk]; [congruence |].
      rewrite IH by assumption. lia.
Qed.

Lemma sum_at_covering (keys : list Z) (m : gmap Z Z) :
  NoDup keys → (∀ k, is_Some (m !! k) → k ∈ keys) →
  sum_at m keys = sum_values m.
Proof.
  intros Hnd. induction m as [| k v m Hk IH] using map_ind; intros Hcover.
  - rewrite sum_values_empty. clear Hnd Hcover.
    induction keys as [| q keys IHk]; [reflexivity |].
    rewrite sum_at_cons, lookup_empty, IHk. reflexivity.
  - rewrite sum_values_insert by exact Hk.
    rewrite sum_at_insert_in; [| exact Hnd | | exact Hk].
    + rewrite IH; [reflexivity |]. intros k' [v' Hk'].
      apply Hcover. destruct (decide (k = k')) as [-> | Hne].
      * rewrite lookup_insert_eq. eauto.
      * rewrite lookup_insert_ne by exact Hne. eauto.
    + apply Hcover. rewrite lookup_insert_eq. eauto.
Qed.

Lemma sum_columns_q_columns (m : gmap Z Z) :
  entries_in_range m → sum_columns (q_columns m) = sum_values m.
Proof.
  intros Hr. apply (sum_at_covering [1; 2; 3; 4; 5; 6; 7; 8]).
  - repeat (constructor; [intros H; log_cases H; discriminate |]). constructor.
  - intros k [v Hkv]. destruct (Hr k v Hkv) as [Hk _].
    apply list_elem_of_In. simpl. lia.
Qed.

Lemma q_columns_checked (m : gmap Z Z) :
  entries_in_range m → Forall (fun v => q_check v = true) (q_columns m).
Proof.
  intros Hr. unfold q_columns. apply Forall_forall. intros v Hv.
  apply list_elem_of_In, in_map_iff in Hv as (q & <- & _).
  destruct (m !! q) as [x |] eqn:Hq; [| reflexivity].
  destruct (Hr q x Hq) as [_ Hx]. unfold q_check.
  apply andb_true_iff. rewrite !Z.leb_le. exact Hx.
Qed.

Lemma q_columns_one_per_pair (m : gmap Z Z) :
  valid_shape m → one_mark_per_pair (q_columns m).
Proof.
  intros [_ Hpairs]. unfold question_pairs in Hpairs.
  rewrite !Forall_cons in Hpairs. unfold one_of_pair in Hpairs. simpl in Hpairs.
  exists (m !! 1), (m !! 2), (m !! 3), (m !! 4),
         (m !! 5), (m !! 6), (m !! 7), (m !! 8).
  split; [reflexivity |]. tauto.
Qed.

(** The range of the extracted marks, for the proofs that follow. *)
Lemma extract_marks_entries (text : str) : entries_in_range (extract_marks text).
Proof.
  unfold extract_marks.
  set (t := fix_transcription_errors text).
  assert (entries_in_range
            (fold_left (fun d p =>
                          fold_left (record_match (ptext p))
                                    (finditer (ptree p) t) d)
                       patterns ∅)) as Hprimary.
  { apply fold_left_invariant; [| apply map_Forall_empty].
    intros d p Hd. apply fold_left_invariant; [| exact Hd].
    intros d' x. apply record_match_in_range. }
  case_bool_decide; [| exact Hprimary].
  apply fold_left_invariant; [| exact Hprimary].
  intros d x. apply record_flexible_in_range.
Qed.

(** X5.  The cap of 40 is implied by the pairing rule: a dictionary that
    the validator accepts and whose marks are within 0..10 totals between
    0 and 40.  So for the dictionaries [extract_marks] returns, the total
    check of the marks command rejects only what the validator rejects as
    well. *)
Theorem valid_combination_total (m : gmap Z Z) :
  (validate_question_combination m = true → entries_in_range m →
   0 ≤ sum_values m ≤ 40) ∧
  (∀ text, 40 < sum_values (extract_marks text) →
           validate_question_combination (extract_marks text) = false).
Proof.
  assert (∀ m' : gmap Z Z,
            validate_question_combination m' = true → entries_in_range m' →
            0 ≤ sum_values m' ≤ 40) as Hcap.
  { intros m' Hv Hr. apply validate_valid_shape in Hv as [Hsize _].
    pose proof (sum_values_bounds m' (entries_in_range_values m' Hr)). lia. }
  split; [apply Hcap |].
  intros text Hbig. apply not_true_is_false. intros Hv.
  pose proof (Hcap _ Hv (extract_marks_entries text)). lia.
Qed.

Lemma valid_combination_total_witness :
  0 ≤ sum_values (list_to_map [(1, 10); (3, 10); (6, 10); (8, 10)]) ≤ 40.
Proof.
  apply (proj1 (valid_combination_total
                  (list_to_map [(1, 10); (3, 10); (6, 10); (8, 10)]))).
  - vm_compute. reflexivity.
  - intros k v Hkv.
    assert (In (k, v) [(1, 10); (3, 10); (6, 10); (8, 10)]) as Hin.
    { apply list_elem_of_In.
      apply (elem_of_list_to_map_2 (M := gmap Z)) in Hkv. exact Hkv. }
    simpl in Hin. intuition (simplify_eq; lia).
Defined.

Lemma insert_ia_marks_inl rows sid ia_type m total rows' :
  insert_ia_marks rows sid ia_type m total = inl rows' →
  ∃ ia, ia_type = Some ia ∧
        rows' = filter (fun r => ¬ (mr_student_id r = sid ∧ mr_ia_type r = ia))
                       rows ++
                [{| mr_student_id := sid; mr_ia_type := ia;
                    mr_q_marks := q_columns m; mr_total_marks := total |}].
Proof.
  unfold insert_ia_marks. destruct ia_type as [ia |]; [| discriminate].
  destruct (negb (in_words ia _)); [discriminate |].
  destruct (negb (forallb _ _)); [discriminate |]. intros [= <-]. eauto.
Qed.

(** The row the marks command writes for an extracted dictionary. *)
Lemma extracted_row_sound text sid ia :
  validate_question_combination (extract_marks text) = true →
  sound_marks_row
    {| mr_student_id := sid; mr_ia_type := ia;
       mr_q_marks := q_columns (extract_marks text);
       mr_total_marks := sum_values (extract_marks text) |}.
Proof.
  intros Hv. pose proof (extract_marks_entries text) as Hr.
  unfold sound_marks_row. cbn [mr_q_marks mr_total_marks].
  repeat split.
  - apply q_columns_one_per_pair. now apply validate_valid_shape.
  - now apply q_columns_checked.
  - symmetry. now apply sum_columns_q_columns.
  - apply validate_valid_shape in Hv as [Hsize _].
    pose proof (sum_values_bounds _ (entries_in_range_values _ Hr)). lia.
  - apply validate_valid_shape in Hv as [Hsize _].
    pose proof (sum_values_bounds _ (entries_in_range_values _ Hr)). lia.
Qed.

(** X6.  The commands keep the rows of [ia_marks] sound: if every row has
    exactly one mark in each pair of question columns, marks within 0..10
    and a total that is the sum of its marks and at most 40, then so has
    every row after any command. *)
Theorem process_text_command_keeps_marks_sound
    (usn_prefix text command_type : str) (date ia_type : option str)
    (w : world) :
  Forall sound_marks_row (ia_marks (db w)) →
  Forall sound_marks_row
    (ia_marks (db (snd (process_text_command usn_prefix text command_type
                          date ia_type w)))).
Proof.
  intros Hsound. unfold process_text_command.
  case_bool_decide as Ha; [| case_bool_decide as Hm].
  - unfold process_attendance_command. command_cases; exact Hsound.
  - unfold process_marks_command. command_cases; try exact Hsound.
    match goal with
    | H : insert_ia_marks _ _ _ _ _ = inl _ |- _ =>
        apply insert_ia_marks_inl in H as (ia & -> & ->)
    end.
    cbn [ia_marks]. apply Forall_app.
    split; [now apply Forall_filter_keep |].
    constructor; [| constructor]. apply extracted_row_sound.
    match goal with
    | H : negb (validate_question_combination _) = false |- _ =>
        now apply negb_false_iff in H
    end.
  - run_monad. exact Hsound.
Qed.

Lemma process_text_command_keeps_marks_sound_witness :
  Forall sound_marks_row
    (ia_marks (db (snd (process_text_command []
                          (lit "Aloha Smith IA1: Q1-8, Q3-7, Q6-9, Q8-8")
                          (lit "marks") None (Some (lit "IA1"))
                          (start roster))))).
Proof.
  apply process_text_command_keeps_marks_sound. constructor.
Defined.

(** ** When a command succeeds *)





(** X9.  The roster matcher returns only students of the roster; on an
    empty roster it finds nobody, and so no command succeeds or writes
    anything. *)
Theorem empty_roster_no_success
    (usn_prefix text command_type : str) (date ia_type : option str)
    (w : world) :
  (∀ identifier st,
     fuzzy_find_student (students (db w)) identifier = Some st →
     st ∈ students (db w)) ∧
  (students (db w) = [] →
   let r := process_text_command usn_prefix text command_type date ia_type w in
   success (fst r) = false ∧ db (snd r) = db w).
Proof.
  split; [intros identifier st; apply fuzzy_find_student_elem |].
  destruct w as [[sts att mk] lg]. cbn [db students]. intros ->.
  unfold process_text_command.
  case_bool_decide as Ha; [| case_bool_decide as Hm].
  - unfold process_attendance_command.
    command_cases; split; try reflexivity; discriminate.
  - unfold process_marks_command.
    command_cases; split; try reflexivity; discriminate.
  - run_monad. split; reflexivity.
Qed.

Lemma empty_roster_no_success_witness :
  success (fst (process_text_command [] (lit "Aloha Smith is present")
                  (lit "attendance") (Some (lit "2024-01-01")) None
                  (start empty_db))) = false.
Proof.
  apply (proj2 (empty_roster_no_success [] (lit "Aloha Smith is present")
                  (lit "attendance") (Some (lit "2024-01-01")) None
                  (start empty_db)) eq_refl).
Defined.

(** ** The exact finder and the matcher *)

Lemma fuzzy_find_student_owner sts identifier st :
  st ∈ sts → owns_key (lower identifier) st →
  fuzzy_find_student sts identifier = last_owner (lower identifier) sts.
Proof.
  intros Hin Hown. unfold fuzzy_find_student.
  destruct sts as [| st0 sts0] eqn:Hsts;
    [apply elem_of_nil in Hin; contradiction |].
  rewrite <- Hsts in *. unfold extractOne.
  rewrite extractOne_from_exact.
  - apply build_choices_get.
  - unfold Qle. simpl. lia.
  - apply dict_get_keys. rewrite build_choices_get.
    eapply last_owner_is_Some; eauto.
  - exact I.
Qed.

(** X10.  [find_student_by_identifier] finds a student exactly when some
    roster entry has the identifier, ignoring case, as its roll number or
    name; the student it returns is such an entry, and one whose roll
    number it is whenever there is one (the roll number goes first).
    Whenever it finds a student, the fuzzy matcher finds one too, with the
    same key, and the same student when only one entry has that key. *)
Theorem find_student_by_identifier_spec
    (sts : list student) (identifier : str) :
  let key := lower identifier in
  (is_Some (find_student_by_identifier sts identifier) ↔
   ∃ st, st ∈ sts ∧ owns_key key st) ∧
  (∀ st, find_student_by_identifier sts identifier = Some st →
         st ∈ sts ∧ owns_key key st ∧
         ((∃ st', st' ∈ sts ∧ lower (usn st') = key) → lower (usn st) = key) ∧
         (∃ st', fuzzy_find_student sts identifier = Some st' ∧
                 owns_key key st') ∧
         ((∀ st', st' ∈ sts → owns_key key st' → st' = st) →
          fuzzy_find_student sts identifier = Some st)).
Proof.
  intros key.
  assert (∀ st, find_student_by_identifier sts identifier = Some st →
                st ∈ sts ∧ owns_key key st ∧
                ((∃ st', st' ∈ sts ∧ lower (usn st') = key) →
                 lower (usn st) = key)) as Hfound.
  { intros st. unfold find_student_by_identifier. fold key.
    destruct (head (filter (fun st => lower (usn st) = key) sts))
      as [st1 |] eqn:H1.
    - intros [= <-]. apply head_Some_elem_of, list_elem_of_filter in H1.
      unfold owns_key. tauto.
    - intros H2. apply head_Some_elem_of, list_elem_of_filter in H2.
      unfold owns_key. repeat split; try tauto.
      intros (st' & Hin & Hkey). apply head_None in H1.
      exfalso. eapply (filter_nil_not_elem_of _ _ st'); eauto. }
  split.
  - split.
    + intros [st Hst]. exists st. apply Hfound in Hst. tauto.
    + intros (st & Hin & Hown). unfold find_student_by_identifier. fold key.
      destruct (head (filter (fun st => lower (usn st) = key) sts))
        as [st1 |] eqn:H1; [eauto |].
      apply head_is_Some. intros Hnil. apply head_None in H1.
      destruct Hown as [Hu | Hn].
      * eapply (filter_nil_not_elem_of _ _ st); [exact H1 | exact Hu | exact Hin].
      * eapply (filter_nil_not_elem_of _ _ st); [exact Hnil | exact Hn | exact Hin].
  - intros st Hst. destruct (Hfound st Hst) as (Hin & Hown & Husn).
    repeat split; auto.
    + rewrite (fuzzy_find_student_owner sts identifier st Hin Hown).
      destruct (last_owner_is_Some key sts st Hin Hown) as [st' Hst'].
      exists st'. split; [exact Hst' |]. now apply last_owner_owns in Hst'.
    + intros Huniq.
      rewrite (fuzzy_find_student_owner sts identifier st Hin Hown).
      destruct (last_owner_is_Some key sts st Hin Hown) as [st' Hst'].
      fold key. rewrite Hst'. f_equal.
      apply last_owner_owns in Hst' as [? ?]. auto.
Qed.

Lemma find_student_by_identifier_spec_witness :
  is_Some (find_student_by_identifier [aloha] (lit "aloha smith")).
Proof.
  apply (proj1 (find_student_by_identifier_spec [aloha] (lit "aloha smith"))).
  exists aloha. split.
  - apply list_elem_of_singleton. reflexivity.
  - right. vm_compute. reflexivity.
Defined.

(** ** Prefix expansion pads *)

(** X11.  With a prefix that ends with 0, a two-digit code and the same
    code written with a leading 0 expand to the same roll number, and
    every two-digit and three-digit code expands to a roll number of the
    same length (the prefix and two more characters). *)
Theorem expand_usn_pads (p d : str) :
  endswith p (lit "0") = true →
  (length d = 2%nat →
   expand_usn p (lit "0" ++ d) = expand_usn p d ∧
   length (expand_usn p d) = (length p + 2)%nat) ∧
  (length d = 3%nat → length (expand_usn p d) = (length p + 2)%nat).
Proof.
  intros Hend.
  assert (but_last p ++ lit "0" = p) as Hp.
  { unfold endswith, but_last in *. apply bool_decide_eq_true in Hend.
    simpl length in Hend. rewrite <- Hend. apply take_drop. }
  assert (p ≠ []) as Hne by (intros ->; discriminate).
  assert (length p = S (length (but_last p))) as Hlen.
  { rewrite <- Hp at 1. rewrite length_app. simpl. lia. }
  unfold expand_usn. rewrite Hend, (bool_decide_eq_false_2 _ Hne).
  split.
  - intros Hd. cbn [length app lit list_ascii_of_string]. rewrite Hd. simpl.
    split.
    + rewrite <- Hp at 2. now rewrite <- app_assoc.
    + rewrite length_app. lia.
  - intros Hd. rewrite Hd. simpl. rewrite length_app. lia.
Qed.

Lemma expand_usn_pads_witness :
  expand_usn (lit "1GA23CI0") (lit "0" ++ lit "24")
  = expand_usn (lit "1GA23CI0") (lit "24").
Proof.
  apply (proj1 (expand_usn_pads (lit "1GA23CI0") (lit "24") eq_refl)).
  reflexivity.
Defined.

(** ** Normalization *)

Lemma is_space_lower_char c : is_space (lower_char c) = is_space c.
Proof. destruct c as [[] [] [] [] [] [] [] []]; reflexivity. Qed.

Lemma lower_char_idem c : lower_char (lower_char c) = lower_char c.
Proof. destruct c as [[] [] [] [] [] [] [] []]; reflexivity. Qed.

Lemma lower_idem s : lower (lower s) = lower s.
Proof.
  unfold lower. rewrite map_map. apply map_ext. intros c. apply lower_char_idem.
Qed.

Lemma lower_lstrip s : lower (lstrip s) = lstrip (lower s).
Proof.
  induction s as [| c s IH]; [reflexivity |].
  simpl. rewrite is_space_lower_char. destruct (is_space c); [exact IH | reflexivity].
Qed.

Lemma lower_rstrip s : lower (rstrip s) = rstrip (lower s).
Proof.
  unfold rstrip, lower. rewrite map_rev. fold (lower (lstrip (rev s))).
  rewrite lower_lstrip. unfold lower. now rewrite map_rev.
Qed.

Lemma lower_strip s : lower (strip s) = strip (lower s).
Proof. unfold strip. now rewrite lower_rstrip, lower_lstrip. Qed.

Lemma lstrip_idem s : lstrip (lstrip s) = lstrip s.
Proof.
  induction s as [| c s IH]; [reflexivity |].
  simpl. destruct (is_space c) eqn:Hc; [exact IH |]. simpl. now rewrite Hc.
Qed.

Lemma rstrip_idem s : rstrip (rstrip s) = rstrip s.
Proof. unfold rstrip. now rewrite rev_involutive, lstrip_idem. Qed.

Lemma strip_idem s : strip (strip s) = strip s.
Proof.
  unfold strip. destruct (lstrip s) as [| c t] eqn:Hs; [reflexivity |].
  apply lstrip_head in Hs.
  destruct (rstrip_head c t Hs) as [t' Ht]. rewrite Ht.
  simpl. rewrite Hs. rewrite <- Ht. apply rstrip_idem.
Qed.

Lemma normalize_idem s : normalize (normalize s) = normalize s.
Proof. unfold normalize. now rewrite lower_strip, lower_idem, strip_idem. Qed.

Lemma normalize_lower s : normalize (lower s) = normalize s.
Proof. unfold normalize. now rewrite lower_idem. Qed.

Lemma normalize_strip s : normalize (strip s) = normalize s.
Proof. unfold normalize. now rewrite lower_strip, strip_idem. Qed.

(** X12.  The commands do not tell letter case or the whitespace around
    the transcript: a transcript, its lowercased form, its trimmed form
    and its normalized form all give the same outcome, the same log and
    the same store. *)
Theorem process_text_command_normalized
    (usn_prefix text command_type : str) (date ia_type : option str)
    (w : world) :
  let outcome_of t :=
    process_text_command usn_prefix t command_type date ia_type w in
  outcome_of (lower text) = outcome_of text ∧
  outcome_of (strip text) = outcome_of text ∧
  outcome_of (normalize text) = outcome_of text.
Proof.
  assert (∀ t1 t2, normalize t1 = normalize t2 →
            process_text_command usn_prefix t1 command_type date ia_type w
            = process_text_command usn_prefix t2 command_type date ia_type w)
    as Hsame.
  { intros t1 t2 H. unfold process_text_command, process_attendance_command,
      process_marks_command. unfold normalize in H. now rewrite H. }
  repeat split; apply Hsame.
  - apply normalize_lower.
  - apply normalize_strip.
  - apply normalize_idem.
Qed.

(** ** [text_to_number] *)

Lemma digit_val_range c : is_digit c = true → 0 ≤ digit_val c ≤ 9.
Proof.
  unfold is_digit, between, digit_val. rewrite andb_true_iff, !Nat.leb_le. lia.
Qed.

Lemma int_of_nonneg s : forallb is_digit s = true → 0 ≤ int_of s.
Proof.
  unfold int_of. assert (∀ acc, 0 ≤ acc → forallb is_digit s = true →
    0 ≤ fold_left (fun acc c => 10 * acc + digit_val c) s acc) as H.
  { induction s as [| c s IH]; intros acc Hacc Hs; simpl in *; [exact Hacc |].
    apply andb_true_iff in Hs as [Hc Hs]. apply IH; [| exact Hs].
    pose proof (digit_val_range c Hc). lia. }
  apply H. lia.
Qed.

Lemma number_map_range w n : dict_get w number_map = Some n → 0 ≤ n ≤ 50.
Proof.
  unfold number_map. cbn [dict_get].
  repeat (case_bool_decide; [intros [= <-]; lia |]). discriminate.
Qed.

(** X13.  [text_to_number] never yields a negative number, and at most 100
    for a text that is not a digit string; it does not tell letter case or
    surrounding whitespace; and on a text of exactly two words it always
    yields a number, an unknown word counting as 0. *)
Theorem text_to_number_spec (text : str) :
  (∀ n, text_to_number text = Some n →
        0 ≤ n ∧ (isdigit (normalize text) = false → n ≤ 100)) ∧
  text_to_number (normalize text) = text_to_number text ∧
  (length (split (normalize text)) = 2%nat → is_Some (text_to_number text)).
Proof.
  assert (∀ w, 0 ≤ default 0 (dict_get w number_map) ≤ 50) as Hget.
  { intros w. destruct (dict_get w number_map) as [n |] eqn:H; simpl; [| lia].
    now apply number_map_range in H. }
  split; [| split].
  - intros n. unfold text_to_number. fold (normalize text).
    destruct (isdigit (normalize text)) eqn:Hd.
    + intros [= <-]. split; [| discriminate].
      unfold isdigit in Hd. apply andb_true_iff in Hd as [_ Hd].
      now apply int_of_nonneg.
    + destruct (dict_get (normalize text) number_map) as [k |] eqn:Hk.
      * intros [= <-]. apply number_map_range in Hk. split; [lia | intros; lia].
      * destruct (split (normalize text)) as [| w0 [| w1 [| w2 ws]]];
          try discriminate.
        pose proof (Hget w0) as H0. pose proof (Hget w1) as H1. revert H0 H1.
        generalize (default 0 (dict_get w0 number_map)),
                   (default 0 (dict_get w1 number_map)).
        intros a0 a1 H0 H1 [= <-]. split; [lia | intros; lia].
  - unfold text_to_number. fold (normalize (normalize text)).
    fold (normalize text). now rewrite normalize_idem.
  - unfold text_to_number. fold (normalize text). intros Hlen.
    destruct (isdigit (normalize text)); [eauto |].
    destruct (dict_get (normalize text) number_map); [eauto |].
    destruct (split (normalize text)) as [| w0 [| w1 [| w2 ws]]];
      try discriminate. eauto.
Qed.

Lemma text_to_number_spec_witness :
  text_to_number (lit " Twenty  Three ") = Some 23 ∧
  is_Some (text_to_number (lit "foo bar")).
Proof.
  split; [vm_compute; reflexivity |].
  apply (proj2 (proj2 (text_to_number_spec (lit "foo bar")))).
  vm_compute. reflexivity.
Defined.

(** ** Transcripts without the letter q *)

Lemma has_q_suffix s' s : s' `suffix_of` s → has_q s' → has_q s.
Proof.
  intros Hsuf (c & Hc & Hq). exists c. split; [| exact Hq].
  eapply elem_of_suffix; eauto.
Qed.

Lemma star_loop_passes_suffix step greedy :
  passes_suffix step → ∀ fuel, passes_suffix (star_loop step greedy fuel).
Proof.
  intros Hstep fuel. induction fuel as [| fuel IH]; intros s cs k x H.
  - simpl in H. exists s, cs. split; [exact H | reflexivity].
  - simpl in H.
    assert (step s cs (fun s' cs' =>
              if (length s' <? length s)%nat
              then star_loop step greedy fuel s' cs' k else None) = Some x
            ∨ k s cs = Some x) as [Hagain | Hk].
    { destruct greedy.
      - destruct (step s cs _) as [x0 |]; [left | right]; congruence.
      - destruct (k s cs) as [x0 |]; [right | left]; congruence. }
    + apply Hstep in Hagain as (s1 & cs1 & H1 & Hsuf1).
      destruct (length s1 <? length s)%nat; [| discriminate].
      apply IH in H1 as (s2 & cs2 & H2 & Hsuf2).
      exists s2, cs2. split; [exact H2 | etrans; eauto].
    + exists s, cs. split; [exact Hk | reflexivity].
Qed.

Lemma m_passes_suffix n r : passes_suffix (m n r).
Proof.
  induction r as [| c | p | r1 IH1 r2 IH2 | r1 IH1 r2 IH2 | greedy r IH
                  | i r IH | | r IH]; intros s cs k x H; simpl in H.
  - exists s, cs. split; [exact H | reflexivity].
  - destruct s as [| a s']; [discriminate |].
    case_bool_decide; [| discriminate].
    exists s', cs. split; [exact H | apply suffix_cons_r; reflexivity].
  - destruct s as [| a s']; [discriminate |].
    destruct (p a); [| discriminate].
    exists s', cs. split; [exact H | apply suffix_cons_r; reflexivity].
  - apply IH1 in H as (s1 & cs1 & H1 & Hsuf1).
    apply IH2 in H1 as (s2 & cs2 & H2 & Hsuf2).
    exists s2, cs2. split; [exact H2 | etrans; eauto].
  - assert (m n r1 s cs k = Some x ∨ m n r2 s cs k = Some x) as [H1 | H2]
      by (destruct (m n r1 s cs k); [left | right]; congruence).
    + now apply IH1 in H1.
    + now apply IH2 in H2.
  - eapply star_loop_passes_suffix; eauto.
  - apply IH in H as (s1 & cs1 & H1 & Hsuf1). eauto.
  - destruct (length s =? n)%nat; [| discriminate].
    exists s, cs. split; [exact H | reflexivity].
  - destruct (m n r s cs _); [discriminate |].
    exists s, cs. split; [exact H | reflexivity].
Qed.

(** A pattern that needs a q matches only where there is one. *)
Lemma m_needs_q n r :
  needs_q r = true → ∀ s cs k x, m n r s cs k = Some x → has_q s.
Proof.
  induction r as [| c | p | r1 IH1 r2 IH2 | r1 IH1 r2 IH2 | greedy r IH
                  | i r IH | | r IH]; simpl; intros Hq s cs k x H;
    try discriminate.
  - destruct s as [| a s']; [discriminate |].
    case_bool_decide as Ha; [| discriminate].
    apply bool_decide_eq_true in Hq.
    exists a. split; [left | congruence].
  - apply orb_true_iff in Hq as [Hq | Hq].
    + eapply IH1; eauto.
    + apply m_passes_suffix in H as (s1 & cs1 & H1 & Hsuf).
      eapply has_q_suffix; [exact Hsuf |]. eapply IH2; eauto.
  - apply andb_true_iff in Hq as [Hq1 Hq2].
    destruct (m n r1 s cs k) eqn:H1.
    + eapply IH1; eauto.
    + eapply IH2; eauto.
  - eapply IH; eauto.
Qed.

Lemma match_here_no_q n r s :
  needs_q r = true → ¬ has_q s → match_here n r s = None.
Proof.
  intros Hq Hs. unfold match_here.
  destruct (m n r s [] _) as [[s' cs'] |] eqn:H; [| reflexivity].
  exfalso. apply Hs. eapply m_needs_q; eauto.
Qed.

Lemma no_q_tail c s : ¬ has_q (c :: s) → ¬ has_q s.
Proof.
  intros H Hs. apply H. eapply has_q_suffix; [| exact Hs].
  apply suffix_cons_r. reflexivity.
Qed.

Lemma finditer_no_q n r s :
  needs_q r = true → ¬ has_q s → finditer_from n r 0 s = [].
Proof.
  intros Hq. induction s as [| c s IH]; intros Hs; simpl;
    rewrite (match_here_no_q n r _ Hq Hs); [reflexivity |].
  apply IH. eapply no_q_tail; eauto.
Qed.

Lemma finditer_nil r t :
  needs_q r = true → ¬ has_q t → finditer r t = [].
Proof. intros. unfold finditer. now apply finditer_no_q. Qed.

Lemma sub_no_q n r repl s :
  needs_q r = true → ¬ has_q s → sub_from n r repl 0 s = s.
Proof.
  intros Hq. induction s as [| c s IH]; intros Hs; simpl;
    rewrite (match_here_no_q n r _ Hq Hs); [reflexivity |].
  f_equal. apply IH. eapply no_q_tail; eauto.
Qed.

Lemma has_q_lstrip s : has_q (lstrip s) → has_q s.
Proof.
  induction s as [| c s IH]; [auto |]. simpl.
  destruct (is_space c); [| auto].
  intros H. eapply has_q_suffix; [| apply IH, H].
  apply suffix_cons_r. reflexivity.
Qed.

Lemma has_q_rev s : has_q (rev s) ↔ has_q s.
Proof.
  unfold has_q. split; intros (c & Hc & Hq); exists c; split; auto;
    apply list_elem_of_In; apply list_elem_of_In in Hc;
    [now apply in_rev | now apply in_rev in Hc].
Qed.

Lemma has_q_normalize s : has_q (normalize s) → has_q s.
Proof.
  unfold normalize, strip, rstrip. intros H.
  apply has_q_rev, has_q_lstrip, has_q_rev, has_q_lstrip in H.
  destruct H as (c & Hc & Hq). unfold lower in Hc.
  apply list_elem_of_In, in_map_iff in Hc as (c0 & <- & Hc0).
  exists c0. split; [now apply list_elem_of_In |].
  now rewrite <- lower_char_idem.
Qed.

(** X14.  A transcript without the letter q, in either case, is left as it
    is by the digit-merge correction and yields no marks at all, so a
    marks command on it never succeeds and writes nothing. *)
Theorem no_q_no_marks (usn_prefix text : str) (ia_type : option str)
    (w : world) :
  ¬ has_q text →
  fix_transcription_errors text = text ∧
  extract_marks text = ∅ ∧
  (let r := process_marks_command usn_prefix text ia_type w in
   success (fst r) = false ∧ db (snd r) = db w).
Proof.
  assert (∀ t, ¬ has_q t → fix_transcription_errors t = t) as Hfix.
  { intros t Ht. unfold fix_transcription_errors, sub.
    rewrite (sub_no_q _ fix_pattern_marks) by (reflexivity || exact Ht).
    apply sub_no_q; [reflexivity | exact Ht]. }
  assert (∀ t, ¬ has_q t → extract_marks t = ∅) as Hmarks.
  { intros t Ht. unfold extract_marks. rewrite (Hfix t Ht).
    assert (∀ ps d, Forall (fun p => needs_q (ptree p) = true) ps →
              fold_left (fun d p =>
                           fold_left (record_match (ptext p))
                                     (finditer (ptree p) t) d) ps d = d)
      as Hfold.
    { induction ps as [| p ps IH]; intros d Hps; [reflexivity |].
      inversion Hps; subst. cbn [fold_left].
      rewrite finditer_nil by assumption. cbn [fold_left]. now apply IH. }
    rewrite Hfold by (repeat constructor).
    rewrite bool_decide_eq_true_2 by reflexivity.
    rewrite finditer_nil; [reflexivity | reflexivity | exact Ht]. }
  intros Hq. split; [now apply Hfix | split; [now apply Hmarks |]].
  assert (extract_marks (strip (lower text)) = ∅) as Hnone.
  { apply Hmarks. intros H. apply Hq. now apply has_q_normalize. }
  unfold process_marks_command. run_monad. rewrite Hnone.
  rewrite bool_decide_eq_true_2 by reflexivity.
  command_cases; split; reflexivity.
Qed.

Lemma no_q_no_marks_witness :
  extract_marks (lit "aloha scored 8 in 1 and 7 marks in 3") = ∅.
Proof.
  refine (proj1 (proj2 (no_q_no_marks [] _ None (start roster) _))).
  intros (c & Hc & Hq).
  let l := eval vm_compute in (lit "aloha scored 8 in 1 and 7 marks in 3") in
  change (c ∈ l) in Hc.
  log_cases Hc; subst; vm_compute in Hq; discriminate.
Defined.

(** ** Loading the roster *)




Lemma flat_map_nil {A B} (f : A → list B) l :
  (∀ a, a ∈ l → f a = []) → flat_map f l = [].
Proof.
  induction l as [| a l IH]; intros Hf; [reflexivity |].
  simpl. rewrite Hf by (now left). apply IH. intros b Hb. apply Hf. now right.
Qed.

(** X16.  Loading a roster numbers the students afresh, above every id the
    table held before, and leaves the attendance table as it is: so the
    rows recorded for the former students stay counted, but belong to
    nobody, and [get_attendance_by_date] lists nothing for any date. *)
Theorem reload_orphans_attendance
    (last_id : Z) (df : list (str * str)) (w : world) :
  let r := load_students_from_csv last_id df w in
  fst (fst (fst r)) = true →
  (∀ a, a ∈ attendance (db w) → ar_student_id a ≤ last_id) →
  (∀ s, s ∈ students (db (snd r)) → last_id < student_id s) ∧
  get_total_attendance_records (db (snd r))
  = get_total_attendance_records (db w) ∧
  ∀ date, get_attendance_by_date (db (snd r)) date = [].
Proof.
  unfold load_students_from_csv. run_monad.
  destruct (pending w); run_monad; [discriminate |].
  case_bool_decide as Hnd; run_monad; [| discriminate]. intros _ Hold.
  set (sts := imap _ _).
  assert (∀ s, s ∈ sts → last_id < student_id s) as Hfresh.
  { intros s Hs. apply elem_of_lookup_imap in Hs as (i & row & -> & _).
    cbn [student_id]. lia. }
  repeat split; [exact Hfresh |].
  intros date. unfold get_attendance_by_date, attendance_join.
  cbn [students attendance].
  rewrite flat_map_nil; [reflexivity |].
  intros a Ha. destruct (bool_decide (ar_date a = date)); [| reflexivity].
  rewrite filter_none; [reflexivity |].
  intros s Hs Hid. specialize (Hfresh s Hs). specialize (Hold a Ha). lia.
Qed.

Lemma reload_orphans_attendance_witness :
  let d := {| students := [aloha];
              attendance := [{| ar_student_id := 1; ar_date := lit "2024-01-01";
                                ar_status := lit "Present" |}];
              ia_marks := [] |} in
  get_attendance_by_date d (lit "2024-01-01")
  = [{| USN := lit "24CS001"; Name := lit "Aloha Smith";
        Status := lit "Present" |}] ∧
  get_attendance_by_date
    (db (snd (load_students_from_csv 1 [(lit "24CS001", lit "Aloha Smith")]
                (start d))))
    (lit "2024-01-01") = [].
Proof.
  intros d. split; [vm_compute; reflexivity |].
  refine (proj2 (proj2 (reload_orphans_attendance 1
                          [(lit "24CS001", lit "Aloha Smith")] (start d) _ _)) _).
  - vm_compute. reflexivity.
  - intros a Ha. apply list_elem_of_singleton in Ha. subst a. cbn. lia.
Defined.

(** ** The attendance list of a date *)

Lemma str_leb_total a b : str_leb a b = true ∨ str_leb b a = true.
Proof.
  revert b. induction a as [| x a IH]; intros [| y b]; simpl; auto.
  destruct (Nat.ltb_spec (code x) (code y)); [auto |].
  destruct (Nat.ltb_spec (code y) (code x)); [auto |]. apply IH.
Qed.

Lemma str_leb_trans a b c :
  str_leb a b = true → str_leb b c = true → str_leb a c = true.
Proof.
  revert b c. induction a as [| x a IH]; intros [| y b] [| z c]; simpl;
    try congruence.
  destruct (Nat.ltb_spec (code x) (code y)), (Nat.ltb_spec (code y) (code x)),
    (Nat.ltb_spec (code y) (code z)), (Nat.ltb_spec (code z) (code y)),
    (Nat.ltb_spec (code x) (code z)), (Nat.ltb_spec (code z) (code x));
    try lia; try congruence.
  apply IH.
Qed.

Lemma usn_le_total : Total usn_le.
Proof. intros a b. apply str_leb_total. Qed.

Lemma usn_le_trans : Transitive usn_le.
Proof. intros a b c. apply str_leb_trans. Qed.

Lemma attendance_join_elem d date r :
  r ∈ attendance_join d date ↔
  ∃ a s, a ∈ attendance d ∧ ar_date a = date ∧
         s ∈ students d ∧ student_id s = ar_student_id a ∧
         r = {| USN := usn s; Name := name s; Status := ar_status a |}.
Proof.
  unfold attendance_join. rewrite list_elem_of_In, in_flat_map. split.
  - intros (a & Ha & Hr). case_bool_decide as Hd; [| destruct Hr].
    apply in_map_iff in Hr as (s & <- & Hs).
    apply list_elem_of_In, list_elem_of_filter in Hs as [Hid Hs].
    exists a, s. rewrite list_elem_of_In. auto.
  - intros (a & s & Ha & Hd & Hs & Hid & ->). exists a.
    split; [now apply list_elem_of_In |].
    rewrite bool_decide_eq_true_2 by exact Hd.
    apply in_map_iff. exists s. split; [reflexivity |].
    apply list_elem_of_In, list_elem_of_filter. auto.
Qed.

Lemma filter_key_length {A} (g : A → Z) (k : Z) l :
  NoDup (map g l) → (length (filter (fun y => g y = k) l) ≤ 1)%nat.
Proof.
  induction l as [| y l IH]; intros Hnd; [simpl; lia |].
  simpl in Hnd. apply NoDup_cons in Hnd as [Hy Hnd].
  destruct (decide (g y = k)) as [Hk | Hk].
  - rewrite filter_cons_True by exact Hk.
    rewrite filter_none; [simpl; lia |].
    intros s Hs Hgs. apply Hy. rewrite Hk, <- Hgs.
    now apply list_elem_of_In, in_map, list_elem_of_In.
  - rewrite filter_cons_False by exact Hk. now apply IH.
Qed.


Lemma flat_map_length_le {A B} (f : A → list B) l :
  (∀ a, (length (f a) ≤ 1)%nat) →
  (length (flat_map f l) ≤ length l)%nat.
Proof.
  intros Hf. induction l as [| a l IH]; [simpl; lia |].
  simpl. rewrite length_app. specialize (Hf a). lia.
Qed.

(** X17.  The list [get_attendance_by_date] returns is in ascending order
    of roll number; its records are exactly those made of a student of the
    roster and an attendance row of that student for the date; and when
    no two students share an id, it has at most one record for each
    attendance row. *)
Theorem get_attendance_by_date_spec (d : database) (date : str) :
  StronglySorted usn_le (get_attendance_by_date d date) ∧
  (∀ r, r ∈ get_attendance_by_date d date ↔
        ∃ a s, a ∈ attendance d ∧ ar_date a = date ∧
               s ∈ students d ∧ student_id s = ar_student_id a ∧
               r = {| USN := usn s; Name := name s;
                      Status := ar_status a |}) ∧
  (NoDup (map student_id (students d)) →
   (length (get_attendance_by_date d date)
    ≤ get_total_attendance_records d)%nat).
Proof.
  unfold get_attendance_by_date. split; [| split].
  - apply StronglySorted_merge_sort;
      [apply usn_le_trans | apply usn_le_total].
  - intros r. rewrite merge_sort_Permutation. apply attendance_join_elem.
  - intros Hnd. rewrite merge_sort_Permutation.
    unfold attendance_join, get_total_attendance_records.
    apply flat_map_length_le. intros a.
    destruct (bool_decide _); [| simpl; lia].
    rewrite length_map. now apply filter_key_length.
Qed.

Lemma get_attendance_by_date_spec_witness :
  let d := {| students := [aloha];
              attendance := [{| ar_student_id := 1; ar_date := lit "2024-01-01";
                                ar_status := lit "Present" |};
                             {| ar_student_id := 1; ar_date := lit "2024-01-02";
                                ar_status := lit "Absent" |}];
              ia_marks := [] |} in
  NoDup (map student_id (students d)) ∧
  (length (get_attendance_by_date d (lit "2024-01-01"))
   ≤ get_total_attendance_records d)%nat.
Proof.
  intros d.
  assert (NoDup (map student_id (students d))) as H.
  { vm_compute. repeat constructor; intros H; log_cases H; discriminate. }
  exact (conj H (proj2 (proj2 (get_attendance_by_date_spec d
                                 (lit "2024-01-01"))) H)).
Defined.



(** ** What a command asks of the store *)

(** X19.  A command only adds to the trace of calls; it makes at most one
    INSERT, exactly one when it succeeds, and a command that makes none
    leaves the store as it was. *)
Theorem process_text_command_one_insert
    (usn_prefix text command_type : str) (date ia_type : option str)
    (w : world) :
  let r := process_text_command usn_prefix text command_type date ia_type w in
  let is_insert e := is_insert_attendance e || is_insert_marks e in
  ∃ evs, log (snd r) = log w ++ evs ∧
         (length (List.filter is_insert evs) ≤ 1)%nat ∧
         (success (fst r) = true →
          length (List.filter is_insert evs) = 1%nat) ∧
         (List.filter is_insert evs = [] → db (snd r) = db w).
Proof.
  unfold process_text_command.
  case_bool_decide as Ha; [| case_bool_decide as Hm].
  - unfold process_attendance_command. command_cases;
      (eexists; split; [rewrite <- ?app_assoc; reflexivity |]);
      cbn; repeat split; try lia; try discriminate.
  - unfold process_marks_command. command_cases;
      (eexists; split; [rewrite <- ?app_assoc; reflexivity |]);
      cbn; repeat split; try lia; try discriminate.
  - run_monad. exists []. rewrite app_nil_r. cbn.
    repeat split; try lia; discriminate.
Qed.
